(** * A SOCKS5 front end of a tunnelling proxy: client.go

    Shallow embedding of [src/src/client.go] (package main): the SOCKS5
    handshake negotiator [handShake], the request parser [getRequest], the
    relay loop [pipeThenClose], the connection handler [handleConnection] and
    the shutdown method [Stop].

    Connections are references ([ConnId]) into a [World] that holds, for each
    connection, the script of what its successive reads deliver and of how its
    successive writes end, and the trace of the effects performed so far.
    Code that does I/O is written in the state monad [M] over that world. *)

From Stdlib Require Import String.
From Stdlib Require Import List Arith Bool Lia PeanoNat ZArith.
From Stdlib Require Import Strings.Byte.
Import ListNotations.

(** ** Constants and errors *)

Definition socksVer5 : nat := 5.
Definition socksCmdConnect : nat := 1.
Definition directionOutput : nat := 0.
Definition directionInput : nat := 1.

(** The six error values of the file, followed by the errors of the Go
    libraries that the code can hand back: package [io]'s, and [*net.OpError]
    with the answer of its [Timeout()] method. *)
Inductive error : Type :=
| errAddrType
| errVer
| errMethod
| errAuthExtraData
| errReqExtraData
| errCmd
| EOF
| ErrUnexpectedEOF
| ErrShortBuffer
| ErrNoProgress
| OpError (timeout : bool)
| ErrOther (code : nat).

(** The test [ok && opErr.Timeout()] after the type assertion of [err] to a
    net.OpError pointer. *)
Definition isTimeout (e : error) : bool :=
  match e with
  | OpError t => t
  | _ => false
  end.

(** ** Connections, events and the world *)

Inductive ConnId : Type := ClientConn | RemoteConn.

Definition ConnId_eqb (a b : ConnId) : bool :=
  match a, b with
  | ClientConn, ClientConn | RemoteConn, RemoteConn => true
  | _, _ => false
  end.

(** The traffic listener is an interface with two methods; a listener value
    is named by a number and its calls are recorded as events. *)
Inductive TrafficListener : Type := Listener (id : nat).

Inductive event : Type :=
| EvWrite (c : ConnId) (bs : list byte) (err : option error)
| EvClose (c : ConnId)
| EvDial (rawaddr : list byte) (server : string)
| EvPrintln (msg : string)
| EvSent (l : TrafficListener) (n : nat)
| EvReceived (l : TrafficListener) (n : nat)
| EvWgAdd (delta : nat)
| EvWgDone
| EvGo
| EvBufGet
| EvBufPut.

(** One result of a [Read] call as the peer and the network decide it: the
    bytes that are available and the error that comes with them. *)
Definition chunk : Type := (list byte * option error)%type.

Record World : Type := mkWorld {
  rd : ConnId -> list chunk;          (* what the next reads of a connection find *)
  wr : ConnId -> list (option error); (* how its next writes end; none left: success *)
  chan : list bool;       (* what the next polls of [s.ch] see: true once closed *)
  dial : option error;    (* how [ss.DialWithRawAddr] ends; [None]: [RemoteConn] *)
  trace : list event      (* effects so far, oldest first *)
}.

Definition upd {A} (f : ConnId -> A) (c : ConnId) (v : A) : ConnId -> A :=
  fun c' => if ConnId_eqb c c' then v else f c'.

Definition set_rd (c : ConnId) (l : list chunk) (w : World) : World :=
  mkWorld (upd (rd w) c l) (wr w) (chan w) (dial w) (trace w).

Definition set_wr (c : ConnId) (l : list (option error)) (w : World) : World :=
  mkWorld (rd w) (upd (wr w) c l) (chan w) (dial w) (trace w).

Definition set_chan (l : list bool) (w : World) : World :=
  mkWorld (rd w) (wr w) l (dial w) (trace w).

Definition emit (e : event) (w : World) : World :=
  mkWorld (rd w) (wr w) (chan w) (dial w) (trace w ++ [e]).

(** The bytes of a connection that no read has consumed yet. *)
Definition pending (w : World) (c : ConnId) : list byte :=
  concat (map fst (rd w c)).

(** ** The state monad *)

Definition M (A : Type) : Type := World -> A * World.

Definition ret {A} (a : A) : M A := fun w => (a, w).

Definition bind {A B} (m : M A) (k : A -> M B) : M B :=
  fun w => let (a, w') := m w in k a w'.

Declare Scope io_scope.
Delimit Scope io_scope with io.
Notation "x <- m ;; k" := (bind m (fun x => k))
  (at level 100, m at next level, right associativity) : io_scope.
Notation "' p <- m ;; k" := (bind m (fun p => k))
  (at level 100, p pattern, m at next level, right associativity) : io_scope.
Notation "m ;;; k" := (bind m (fun _ => k))
  (at level 100, right associativity) : io_scope.
Open Scope io_scope.

Definition event_ (e : event) : M unit := fun w => (tt, emit e w).

(** ** net.Conn *)

(** [conn.Read(p)] with [len(p) = cap]: the next chunk, cut to [cap] bytes
    (what does not fit stays for the next read); end of stream when the
    script is over. *)
Definition Read (c : ConnId) (cap : nat) : M (list byte * option error) :=
  fun w =>
    match rd w c with
    | [] => (([], Some EOF), w)
    | (bs, e) :: rest =>
        if length bs <=? cap
        then ((bs, e), set_rd c rest w)
        else ((firstn cap bs, None), set_rd c ((skipn cap bs, e) :: rest) w)
    end.

(** [conn.Write(p)]: all of [p] or an error. *)
Definition Write (c : ConnId) (bs : list byte) : M (nat * option error) :=
  fun w =>
    match wr w c with
    | [] => ((length bs, None), emit (EvWrite c bs None) w)
    | None :: rest => ((length bs, None), emit (EvWrite c bs None) (set_wr c rest w))
    | Some e :: rest => ((0, Some e), emit (EvWrite c bs (Some e)) (set_wr c rest w))
    end.

Definition Close (c : ConnId) : M unit := event_ (EvClose c).

(** ** Byte buffers and package io *)

(** [make([]byte, n)] *)
Definition make (n : nat) : list byte := repeat x00 n.

(** Copying [bs] into a buffer from index [off] on. *)
Definition store (buf : list byte) (off : nat) (bs : list byte) : list byte :=
  firstn off buf ++ bs ++ skipn (off + length bs) buf.

(** [buf[lo:hi]] *)
Definition slice (buf : list byte) (lo hi : nat) : list byte :=
  firstn (hi - lo) (skipn lo buf).

Definition chunks_size (l : list chunk) : nat :=
  fold_right (fun ch acc => S (length (fst ch)) + acc) 0 l.

(** The loop of [io.ReadAtLeast] on the window [buf[lo:hi]]:
    [for n < min && err == nil { nn, err = r.Read(buf[n:]); n += nn }].
    [fuel] bounds the number of reads; [ErrNoProgress] marks a loop that
    used them all, which the loop of [ReadAtLeast] never does. *)
Fixpoint readLoop (fuel : nat) (c : ConnId) (buf : list byte) (lo hi min n : nat)
    (err : option error) : M (nat * option error * list byte) :=
  match err with
  | Some _ => ret (n, err, buf)
  | None =>
      if n <? min then
        match fuel with
        | 0 => ret (n, Some ErrNoProgress, buf)
        | S fuel' =>
            '(bs, e) <- Read c (hi - (lo + n)) ;;
            readLoop fuel' c (store buf (lo + n) bs) lo hi min (n + length bs) e
        end
      else ret (n, err, buf)
  end.

(** [io.ReadAtLeast(c, buf[lo:hi], min)]; the buffer it filled is returned
    with the count and the error. *)
Definition ReadAtLeast (c : ConnId) (buf : list byte) (lo hi min : nat)
    : M (nat * option error * list byte) :=
  fun w =>
    if hi - lo <? min then ((0, Some ErrShortBuffer, buf), w)
    else
      let '((n, err, buf'), w') :=
        readLoop (S (chunks_size (rd w c))) c buf lo hi min 0 None w in
      if min <=? n then ((n, None, buf'), w')
      else match err with
           | Some EOF => if 0 <? n then ((n, Some ErrUnexpectedEOF, buf'), w')
                         else ((n, err, buf'), w')
           | _ => ((n, err, buf'), w')
           end.

(** [io.ReadFull(c, buf[lo:hi])] *)
Definition ReadFull (c : ConnId) (buf : list byte) (lo hi : nat)
    : M (nat * option error * list byte) :=
  ReadAtLeast c buf lo hi (hi - lo).

(** ** Service *)

Record ServerCipher : Type := mkServerCipher {
  server : string;
  cipher : nat
}.

(** The fields of [Service] that are read by the code of a connection; the
    channel [ch] and the wait group are shared with every other goroutine and
    live in the world ([chan], [EvWgAdd], [EvWgDone]) and in [Lifecycle]. *)
Record Service : Type := mkService {
  serverCipher : ServerCipher;
  debug : bool;
  trafficListener : option TrafficListener
}.

(** [NewService]: diagnostics on, no listener. What it does to the channel
    and to the wait group is [Lifecycle.NewService]. *)
Definition NewService (serverCipher : ServerCipher) : Service :=
  mkService serverCipher true None.

Definition SetTrafficListener (s : Service) (l : option TrafficListener) : Service :=
  mkService (serverCipher s) (debug s) l.

(** ** handShake *)

Definition idVer : nat := 0.
Definition idNmethod : nat := 1.

(** [int(buf[i])], for an index inside the buffer. *)
Definition byteAt (buf : list byte) (i : nat) : nat := Byte.to_nat (nth i buf x00).

Definition handShake (s : Service) (conn : ConnId) : M (option error) :=
  let buf := make 258 in
  '(n, err, buf) <- ReadAtLeast conn buf 0 258 (idNmethod + 1) ;;
  match err with
  | Some e => ret (Some e)
  | None =>
      if negb (byteAt buf idVer =? socksVer5) then ret (Some errVer)
      else
        let nmethod := byteAt buf idNmethod in
        let msgLen := nmethod + 2 in
        err <- (if n =? msgLen then ret None
                else if n <? msgLen then
                  '(_, err, _) <- ReadFull conn buf n msgLen ;; ret err
                else ret (Some errAuthExtraData)) ;;
        match err with
        | Some e => ret (Some e)
        | None => '(_, err) <- Write conn [x05; x00] ;; ret err
        end
  end.

(** ** getRequest *)

Definition idCmd : nat := 1.
Definition idType : nat := 3.
Definition idIP0 : nat := 4.
Definition idDmLen : nat := 4.
Definition idDm0 : nat := 5.

Definition typeIPv4 : nat := 1.
Definition typeDm : nat := 3.
Definition typeIPv6 : nat := 4.

Definition IPv4len : nat := 4.
Definition IPv6len : nat := 16.

Definition lenIPv4 : nat := 3 + 1 + IPv4len + 2.
Definition lenIPv6 : nat := 3 + 1 + IPv6len + 2.
Definition lenDmBase : nat := 3 + 1 + 1 + 2.

(** The switch on [buf[idType]] that sets [reqLen]; [None] is its default
    case, which returns [errAddrType] (the initial [-1] is never used). *)
Definition reqLen (buf : list byte) : option nat :=
  let t := byteAt buf idType in
  if t =? typeIPv4 then Some lenIPv4
  else if t =? typeIPv6 then Some lenIPv6
  else if t =? typeDm then Some (byteAt buf idDmLen + lenDmBase)
  else None.

(** [binary.BigEndian.Uint16] *)
Definition Uint16 (b : list byte) : nat := byteAt b 0 * 256 + byteAt b 1.

(** What the diagnostic string [host] is made from: the address bytes (an IP
    address or a domain name) and the port number. Their rendering as text
    by net.IP.String, strconv.Itoa and net.JoinHostPort is the libraries'. *)
Definition HostPort : Type := (list byte * nat)%type.

Definition getRequest (s : Service) (conn : ConnId)
    : M (list byte * option HostPort * option error) :=
  let buf := make 263 in
  '(n, err, buf) <- ReadAtLeast conn buf 0 263 (idDmLen + 1) ;;
  match err with
  | Some e => ret ([], None, Some e)
  | None =>
      if negb (byteAt buf idVer =? socksVer5) then ret ([], None, Some errVer)
      else if negb (byteAt buf idCmd =? socksCmdConnect) then ret ([], None, Some errCmd)
      else
        match reqLen buf with
        | None => ret ([], None, Some errAddrType)
        | Some reqLen =>
            '(err, buf) <- (if n =? reqLen then ret (None, buf)
                            else if n <? reqLen then
                              '(_, err, buf) <- ReadFull conn buf n reqLen ;;
                              ret (err, buf)
                            else ret (Some errReqExtraData, buf)) ;;
            match err with
            | Some e => ret ([], None, Some e)
            | None =>
                let rawaddr := slice buf idType reqLen in
                let host :=
                  if debug s then
                    let t := byteAt buf idType in
                    let h :=
                      if t =? typeIPv4 then slice buf idIP0 (idIP0 + IPv4len)
                      else if t =? typeIPv6 then slice buf idIP0 (idIP0 + IPv6len)
                      else if t =? typeDm then slice buf idDm0 (idDm0 + byteAt buf idDmLen)
                      else [] in
                    let port := Uint16 (slice buf (reqLen - 2) reqLen) in
                    Some (h, port)
                  else None in
                ret (rawaddr, host, None)
            end
        end
  end.

(** ** The SOCKS5 CONNECT request on the wire (RFC 1928, section 4) *)

Inductive SocksAddr : Type :=
| AddrIPv4 (a : list byte)
| AddrIPv6 (a : list byte)
| AddrDomain (name : list byte).

Definition addr_ok (a : SocksAddr) : Prop :=
  match a with
  | AddrIPv4 a => length a = 4
  | AddrIPv6 a => length a = 16
  | AddrDomain d => length d <= 255
  end.

Definition byte_of_nat (n : nat) : byte :=
  match Byte.of_nat n with
  | Some b => b
  | None => x00
  end.

Definition encodeAddr (a : SocksAddr) : list byte :=
  match a with
  | AddrIPv4 a => x01 :: a
  | AddrIPv6 a => x04 :: a
  | AddrDomain d => x03 :: byte_of_nat (length d) :: d
  end.

Definition encodePort (port : nat) : list byte :=
  [byte_of_nat (port / 256); byte_of_nat (port mod 256)].

(** VER = 5, CMD = 1 (CONNECT), RSV, ATYP, DST.ADDR, DST.PORT *)
Definition connectRequest (rsv : byte) (a : SocksAddr) (port : nat) : list byte :=
  [x05; x01; rsv] ++ encodeAddr a ++ encodePort port.

Definition okChunk (bs : list byte) : chunk := (bs, None).

(** ** pipeThenClose *)

(** A call of a method of [s.debug], the diagnostic sink. *)
Definition Println (msg : string) : M unit := event_ (EvPrintln msg).

(** The poll [select { case <-s.ch: ...; default: }]: nothing is ever sent on
    [s.ch], the receive succeeds once the channel is closed. *)
Definition recvCh : M bool :=
  fun w =>
    match chan w with
    | [] => (false, w)
    | b :: rest => (b, set_chan rest w)
    end.

(** How an iteration of a [for] loop ends. *)
Inductive ctl : Type := Continue | Break | Return.

Section Relay.

(** The length of the buffers that [leakyBuf] hands out; [leakyBuf] is
    declared in another file of the package. *)
Variable leakyBufSize : nat.

(** The body of the loop of [pipeThenClose]. *)
Definition pipeIter (s : Service) (src dst : ConnId) (directionFlag : nat) : M ctl :=
  closed <- recvCh ;;
  if closed then ret Return
  else
    '(bs, err) <- Read src leakyBufSize ;;
    let n := length bs in
    stop <- (if 0 <? n then
               '(n, err) <- Write dst bs ;;
               match err with
               | Some _ => Println "write:"%string ;;; ret true
               | None =>
                   match trafficListener s with
                   | Some l =>
                       if directionFlag =? directionOutput then
                         event_ (EvSent l n) ;;; ret false
                       else if directionFlag =? directionInput then
                         event_ (EvReceived l n) ;;; ret false
                       else ret false
                   | None => ret false
                   end
               end
             else ret false) ;;
    if (stop : bool) then ret Break
    else
      match err with
      | Some e => if isTimeout e then ret Continue else ret Break
      | None => ret Continue
      end.

(** The loop; it answers whether it was left within [fuel] iterations. *)
Fixpoint pipeLoop (fuel : nat) (s : Service) (src dst : ConnId) (directionFlag : nat)
    : M bool :=
  match fuel with
  | 0 => ret false
  | S fuel' =>
      c <- pipeIter s src dst directionFlag ;;
      match c with
      | Continue => pipeLoop fuel' s src dst directionFlag
      | Break | Return => ret true
      end
  end.

(** [pipeThenClose]; the deferred calls run when the loop is left, the last
    deferred first. The answer is [false] for a loop that goes on for
    ever, which takes a buffer of length zero. *)
Definition pipeThenClose (s : Service) (src dst : ConnId) (directionFlag : nat)
    : M bool :=
  fun w =>
    (event_ EvBufGet ;;;
     exited <- pipeLoop (S (chunks_size (rd w src))) s src dst directionFlag ;;
     if (exited : bool) then event_ EvBufPut ;;; Close dst ;;; ret true
     else ret false) w.

(** ** handleConnection *)

Definition confirmation : list byte :=
  [x05; x00; x00; x01; x00; x00; x00; x00; x08; x43].

(** [ss.DialWithRawAddr(rawaddr, server, cipher.Copy())], of the
    shadowsocks library. *)
Definition DialWithRawAddr (rawaddr : list byte) (server : string) : M (ConnId + error) :=
  fun w =>
    match dial w with
    | None => (inl RemoteConn, emit (EvDial rawaddr server) w)
    | Some e => (inr e, emit (EvDial rawaddr server) w)
    end.

(** The goroutine that [handleConnection] starts, remote to local; its
    deferred [Done] runs when the relay returns. *)
Definition remoteToLocal (s : Service) (remote conn : ConnId) : M bool :=
  exited <- pipeThenClose s remote conn directionInput ;;
  if (exited : bool) then event_ EvWgDone ;;; ret true
  else ret false.

(** The body of [handleConnection], up to where its deferred calls start.
    It answers whether that point was reached, and the goroutine that the
    [go] statement started, if any: a task that runs in a world of its own. *)
Definition handleConnection_body (s : Service) (conn : ConnId)
    : M (bool * option (M bool)) :=
  err <- handShake s conn ;;
  match err with
  | Some _ => Println "socks handshake:"%string ;;; ret (true, None)
  | None =>
      '(rawaddr, addr, err) <- getRequest s conn ;;
      match err with
      | Some _ => Println "error getting request:"%string ;;; ret (true, None)
      | None =>
          '(_, err) <- Write conn confirmation ;;
          (match err with
           | Some _ => Println "send connection confirmation:"%string
           | None => ret tt
           end) ;;;
          Println "connected to"%string ;;;
          r <- DialWithRawAddr rawaddr (server (serverCipher s)) ;;
          match r with
          | inr _ => Println "dial:"%string ;;; ret (true, None)
          | inl remote =>
              event_ (EvWgAdd 1) ;;;
              event_ EvGo ;;;
              let task := remoteToLocal s remote conn in
              (* local to remote *)
              exited <- pipeThenClose s conn remote directionOutput ;;
              if (exited : bool) then
                Println "closed connection to"%string ;;; ret (true, Some task)
              else ret (false, Some task)
          end
      end
  end.

Definition handleConnection (s : Service) (conn : ConnId)
    : M (bool * option (M bool)) :=
  '(returned, task) <- handleConnection_body s conn ;;
  if (returned : bool) then
    Close conn ;;; event_ EvWgDone ;;; ret (true, task)
  else ret (false, task).

End Relay.

(** ** NewService, Serve and Stop: the shutdown channel and the wait group *)

Module Lifecycle.

(** The two shared objects of a [Service]: whether [ch] has been closed, and
    the counter of the wait group. *)
Record State : Type := mkState {
  ch_closed : bool;
  counter : Z
}.

(** A call returns, blocks for ever in the state it is given, or panics. *)
Inductive outcome : Type :=
| Returns (st : State)
| Blocks (st : State)
| Panics (msg : string).

(** [make(chan bool)], [&sync.WaitGroup{}] and [s.waitGroup.Add(1)] *)
Definition NewService : State := mkState false 1.

(** [close(s.ch)]: closing a closed channel is a run-time panic. *)
Definition close (st : State) : outcome :=
  if ch_closed st then Panics "close of closed channel"%string
  else Returns (mkState true (counter st)).

(** [s.waitGroup.Add(delta)]; [Done()] is [Add(-1)]. *)
Definition Add (delta : Z) (st : State) : outcome :=
  if (counter st + delta <? 0)%Z then Panics "sync: negative WaitGroup counter"%string
  else Returns (mkState (ch_closed st) (counter st + delta)).

Definition Done (st : State) : outcome := Add (-1) st.

(** [s.waitGroup.Wait()] returns when the counter is zero. *)
Definition Wait (st : State) : outcome :=
  if (counter st =? 0)%Z then Returns st else Blocks st.

(** [Stop]. Between its two calls and while it waits the other goroutines
    run: [others] is what they have done to the shared state by the time
    the wait is decided. *)
Definition Stop (others : State -> State) (st : State) : outcome :=
  match close st with
  | Returns st1 => Wait (others st1)
  | o => o
  end.

(** One iteration of the loop of [Serve], with the result of [Accept]; the
    deferred [Done] runs when the loop returns. *)
Definition Serve_iter (accepted : bool) (st : State) : outcome :=
  if ch_closed st then Done st
  else if accepted then Add 1 st
  else Returns st.

(** What the goroutines of a service do to the shared state: they add to
    and take from the counter, and leave the channel to [Stop]. *)
Definition keeps_channel (others : State -> State) : Prop :=
  forall st, ch_closed (others st) = ch_closed st.

(** The accept loop sees the closed channel and returns. *)
Definition serve_returns (st : State) : State :=
  match Serve_iter false st with
  | Returns st' => st'
  | _ => st
  end.

End Lifecycle.

(** ** Vocabulary of the statements *)

(** A stream whose reads deliver bytes and no error. *)
Definition okchunks (l : list chunk) : Prop := Forall (fun ch => snd ch = None) l.

(** [w'] differs from [w] in what is left to read on [c] at most. *)
Definition same_but_rd (c : ConnId) (w w' : World) : Prop :=
  wr w' = wr w /\ chan w' = chan w /\ dial w' = dial w /\ trace w' = trace w /\
  forall c', c' <> c -> rd w' c' = rd w c'.

(** The calls of the traffic listener that follow a write of [n] bytes. *)
Definition callback (s : Service) (directionFlag n : nat) : list event :=
  match trafficListener s with
  | Some l =>
      if directionFlag =? directionOutput then [EvSent l n]
      else if directionFlag =? directionInput then [EvReceived l n]
      else []
  | None => []
  end.

Definition isCallback (e : event) : bool :=
  match e with
  | EvSent _ _ | EvReceived _ _ => true
  | _ => false
  end.

Definition isClose (c : ConnId) (e : event) : bool :=
  match e with
  | EvClose c' => ConnId_eqb c c'
  | _ => false
  end.

Definition isDial (e : event) : bool :=
  match e with
  | EvDial _ _ => true
  | _ => false
  end.

(** How many times [c] is closed in a trace. *)
Definition closes (c : ConnId) (tr : list event) : nat :=
  length (filter (isClose c) tr).

(** The traces of a relay loop: writes to [dst], each successful one
    followed by the calls of the listener, a failed one by the end of the
    loop. The flag tells whether the loop was left. *)
Inductive relay_events (s : Service) (dst : ConnId) (dir : nat)
  : bool -> list event -> Prop :=
| relay_running : relay_events s dst dir false []
| relay_left : relay_events s dst dir true []
| relay_written : forall bs rest x,
    relay_events s dst dir x rest ->
    relay_events s dst dir x (EvWrite dst bs None :: callback s dir (length bs) ++ rest)
| relay_failed : forall bs e,
    relay_events s dst dir true [EvWrite dst bs (Some e); EvPrintln "write:"%string].

(** The schedules of two goroutines: the interleavings of their traces. *)
Inductive merge {A : Type} : list A -> list A -> list A -> Prop :=
| merge_nil : merge [] [] []
| merge_left : forall a l r m, merge l r m -> merge (a :: l) r (a :: m)
| merge_right : forall a l r m, merge l r m -> merge l (a :: r) (a :: m).

(** ** A service and some worlds, for the examples *)

Definition exService : Service :=
  mkService (mkServerCipher "127.0.0.1:8388"%string 0) true (Some (Listener 0)).

Definition exWorld (client remote : list chunk) (wrClient : list (option error))
    (d : option error) : World :=
  mkWorld (fun c => match c with ClientConn => client | RemoteConn => remote end)
          (fun c => match c with ClientConn => wrClient | RemoteConn => [] end)
          [] d [].

(** 192.168.1.1, port 8080 *)
Definition exAddr : SocksAddr := AddrIPv4 [xc0; xa8; x01; x01].
Definition exPort : nat := 31 * 256 + 144.

(** A handshake that offers two methods, in two reads. *)
Definition exHello : World :=
  exWorld [okChunk [x05; x02]; okChunk [x00; x01]] [] [] None.

(** A handshake that announces one method and brings two. *)
Definition exHelloExtra : World :=
  exWorld [okChunk [x05; x01; x00; x02]] [] [] None.

(** A SOCKS4 greeting. *)
Definition exHelloV4 : World :=
  exWorld [okChunk [x04; x01; x00]] [] [] None.

(** The request for 192.168.1.1:8080, in two reads. *)
Definition exRequest : World :=
  exWorld [okChunk [x05; x01; x00; x01; xc0]; okChunk [xa8; x01; x01; x1f; x90]]
          [] [] None.

(** The same request with one more byte. *)
Definition exRequestExtra : World :=
  exWorld [okChunk (connectRequest x00 exAddr exPort ++ [x00])] [] [] None.

(** A BIND request. *)
Definition exBind : World :=
  exWorld [okChunk [x05; x02; x00; x01; xc0; xa8; x01; x01; x1f; x90]] [] [] None.



(** A whole session: handshake, request, then two bytes from the client,
    with one byte waiting on the remote side. *)
Definition exSession : World :=
  exWorld [okChunk [x05; x01; x00];
           okChunk [x05; x01; x00; x01; xc0; xa8; x01; x01; x1f; x90];
           okChunk [x41; x42]]
          [okChunk [x43]] [] None.


(** The world of the goroutine that relays remote to local. *)
Definition exTask : World := exWorld [] [okChunk [x43]] [] None.

Definition exLast : World := exWorld [([x41], Some EOF)] [] [] None.

(** ** Serve *)

(** The listening socket: how its next calls of [Accept] end ([None]: with a
    connection), and how many times it has been closed. When nobody is there
    to connect, [Accept] ends with the expiry of the deadline set before it. *)
Record TCPListener : Type := mkTCPListener {
  incoming : list (option error);
  lclosed : nat
}.

Definition Accept (l : TCPListener) : option error * TCPListener :=
  match incoming l with
  | [] => (Some (OpError true), l)
  | r :: rest => (r, mkTCPListener rest (lclosed l))
  end.

Definition CloseListener (l : TCPListener) : TCPListener :=
  mkTCPListener (incoming l) (S (lclosed l)).

Section Accepting.

Variable leakyBufSize : nat.

(** A handler started by [go s.handleConnection(conn)]: it runs in a world of
    its own, where the accepted connection is [ClientConn]. *)
Definition Handler : Type := M (bool * option (M bool)).

(** The body of the loop of [Serve]. *)
Definition serveIter (s : Service) (l : TCPListener)
    : M (ctl * TCPListener * list Handler) :=
  closed <- recvCh ;;
  if closed then
    Println "stopping listening on"%string ;;;
    ret (Return, CloseListener l, [])
  else
    let '(err, l) := Accept l in
    match err with
    | Some e =>
        if isTimeout e then ret (Continue, l, [])
        else Println "accept:"%string ;;; ret (Continue, l, [])
    | None =>
        Println "socks connect from"%string ;;;
        event_ (EvWgAdd 1) ;;;
        event_ EvGo ;;;
        ret (Continue, l, [handleConnection leakyBufSize s ClientConn])
    end.

(** The loop; it answers whether it was left within [fuel] iterations, and
    the handlers it started. *)
Fixpoint serveLoop (fuel : nat) (s : Service) (l : TCPListener) (started : list Handler)
    : M (bool * TCPListener * list Handler) :=
  match fuel with
  | 0 => ret (false, l, started)
  | S fuel' =>
      '(c, l, hs) <- serveIter s l ;;
      match c with
      | Continue => serveLoop fuel' s l (started ++ hs)
      | Break | Return => ret (true, l, started ++ hs)
      end
  end.

(** [Serve]; the deferred [Done] runs when the loop returns. The loop has
    as many iterations as there are polls and connections scripted, and one
    more: a loop that has not returned by then turns for ever, no shutdown
    in sight and nobody connecting. *)
Definition Serve (s : Service) (l : TCPListener) : M (bool * TCPListener * list Handler) :=
  fun w =>
    ('(returned, l, hs) <-
       serveLoop (S (Nat.max (length (chan w)) (length (incoming l)))) s l [] ;;
     if (returned : bool) then event_ EvWgDone ;;; ret (true, l, hs)
     else ret (false, l, hs)) w.

End Accepting.

(** ** More vocabulary *)

(** What a trace does to the counter of the wait group. *)
Definition wgDelta (tr : list event) : Z :=
  fold_right (fun e acc =>
                match e with
                | EvWgAdd d => (Z.of_nat d + acc)%Z
                | EvWgDone => (acc - 1)%Z
                | _ => acc
                end) 0%Z tr.

(** The bytes that the successful writes of a trace sent to [c], in order. *)
Definition written (c : ConnId) (tr : list event) : list byte :=
  flat_map (fun e =>
              match e with
              | EvWrite c' bs None => if ConnId_eqb c c' then bs else []
              | _ => []
              end) tr.

(** The totals that the traffic listener is told. *)
Definition sentTotal (tr : list event) : nat :=
  fold_right (fun e acc => match e with EvSent _ n => n + acc | _ => acc end) 0 tr.

Definition receivedTotal (tr : list event) : nat :=
  fold_right (fun e acc => match e with EvReceived _ n => n + acc | _ => acc end) 0 tr.

Definition isGo (e : event) : bool :=
  match e with
  | EvGo => true
  | _ => false
  end.


(** The connections among the results of [Accept]. *)
Definition accepted (rs : list (option error)) : nat :=
  length (filter (fun r => match r with None => true | Some _ => false end) rs).

(** What a run added to the trace. *)
Definition newEvents (w w' : World) : list event :=
  skipn (length (trace w)) (trace w').



(** An empty stream; a SOCKS4 request; a relay started after the shutdown;
    a session whose dial fails. *)
Definition exEmpty : World := exWorld [] [] [] None.
Definition exRequestV4 : World :=
  exWorld [okChunk [x04; x01; x00; x50; xc0; xa8; x01; x01; x00]] [] [] None.
Definition exStopped : World :=
  mkWorld (fun c => match c with ClientConn => [okChunk [x41]] | RemoteConn => [] end)
          (fun _ => []) [true] None [].
Definition exSessionNoDial : World :=
  exWorld [okChunk [x05; x01; x00];
           okChunk [x05; x01; x00; x01; xc0; xa8; x01; x01; x1f; x90];
           okChunk [x41; x42]]
          [okChunk [x43]] [] (Some (ErrOther 2)).

(** A session whose request is a BIND. *)
Definition exSessionBind : World :=
  exWorld [okChunk [x05; x01; x00];
           okChunk [x05; x02; x00; x01; xc0; xa8; x01; x01; x1f; x90]]
          [] [] None.

(** A listener for the examples: a connection, a timeout, an error, then
    another connection. *)
Definition exListener : TCPListener :=
  mkTCPListener [None; Some (OpError true); Some (ErrOther 7); None] 0.

(** A world where the shutdown is seen at the third poll. *)
Definition exShutdown : World :=
  mkWorld (fun _ => []) (fun _ => []) [false; false; true] None [].

(** A handshake cut short, and a request cut short. *)
Definition exHelloShort : World :=
  exWorld [okChunk [x05; x03]; okChunk [x00]] [] [] None.
Definition exRequestShort : World :=
  exWorld [okChunk [x05; x01; x00; x01; xc0]; okChunk [xa8; x01]] [] [] None.

(** A source that delivers five bytes in three reads, one of them empty. *)
Definition exStream : World :=
  exWorld [okChunk [x41; x42]; okChunk []; okChunk [x43; x44; x45]] [] [] None.

(** * Proofs *)

(** ** Worlds and buffers *)

Ltac splits := repeat match goal with |- _ /\ _ => split end.

Ltac norm_trace := repeat first [rewrite <- app_assoc | progress simpl].

Lemma ConnId_eqb_spec a b : reflect (a = b) (ConnId_eqb a b).
Proof. destruct a, b; simpl; constructor; congruence. Qed.

Lemma upd_same {A} (f : ConnId -> A) c v : upd f c v c = v.
Proof. unfold upd. destruct (ConnId_eqb_spec c c); congruence. Qed.

Lemma upd_other {A} (f : ConnId -> A) c c' v : c' <> c -> upd f c v c' = f c'.
Proof. unfold upd. destruct (ConnId_eqb_spec c c'); congruence. Qed.

Lemma same_but_rd_refl c w : same_but_rd c w w.
Proof. unfold same_but_rd; auto. Qed.

Lemma same_but_rd_trans c w1 w2 w3 :
  same_but_rd c w1 w2 -> same_but_rd c w2 w3 -> same_but_rd c w1 w3.
Proof.
  unfold same_but_rd. intros (a1 & a2 & a3 & a4 & a5) (b1 & b2 & b3 & b4 & b5).
  repeat split; try congruence. intros c' Hc. rewrite b5, a5; auto.
Qed.

Lemma same_but_rd_set c l w : same_but_rd c w (set_rd c l w).
Proof.
  unfold same_but_rd, set_rd; simpl. repeat split; auto.
  intros c' Hc. apply upd_other; auto.
Qed.

Lemma store_length buf off bs :
  off + length bs <= length buf -> length (store buf off bs) = length buf.
Proof.
  intros H. unfold store. rewrite !length_app, length_firstn, length_skipn. lia.
Qed.

Lemma store_nil buf off : store buf off [] = buf.
Proof. unfold store. simpl. rewrite Nat.add_0_r. apply firstn_skipn. Qed.

Lemma store_store buf off a b :
  off <= length buf ->
  store (store buf off a) (off + length a) b = store buf off (a ++ b).
Proof.
  intros H. unfold store.
  assert (Hl : length (firstn off buf) = off) by (rewrite length_firstn; lia).
  rewrite (app_assoc (firstn off buf) a).
  rewrite firstn_app.
  replace (off + length a - length (firstn off buf ++ a)) with 0
    by (rewrite length_app; lia).
  rewrite firstn_all2 by (rewrite length_app; lia).
  simpl. rewrite app_nil_r.
  rewrite skipn_app.
  rewrite (skipn_all2 (firstn off buf ++ a)) by (rewrite length_app; lia).
  simpl. rewrite skipn_skipn.
  rewrite length_app, Hl.
  replace (off + length a + length b - (off + length a) + (off + length a))
    with (off + length (a ++ b)) by (rewrite length_app; lia).
  rewrite <- !app_assoc. reflexivity.
Qed.

Lemma firstn_add {A} (l : list A) a b :
  firstn (a + b) l = firstn a l ++ firstn b (skipn a l).
Proof.
  revert l. induction a as [|a IH]; intros l; simpl; auto.
  destruct l; simpl.
  - rewrite firstn_nil. reflexivity.
  - rewrite IH. reflexivity.
Qed.

Lemma nth_store_0 buf bs i :
  i < length bs -> nth i (store buf 0 bs) x00 = nth i bs x00.
Proof.
  intros H. unfold store. simpl. rewrite app_nth1; auto.
Qed.


(** ** Reading from a stream without errors *)

Lemma Read_ok c cap w :
  okchunks (rd w c) -> rd w c <> [] ->
  exists m w1,
    Read c cap w = ((firstn m (pending w c), None), w1) /\
    m <= cap /\ m <= length (pending w c) /\
    pending w1 c = skipn m (pending w c) /\
    okchunks (rd w1 c) /\
    (0 < cap -> chunks_size (rd w1 c) < chunks_size (rd w c)) /\
    same_but_rd c w w1.
Proof.
  intros Hok Hne. unfold Read, pending.
  destruct (rd w c) as [|[bs e] rest] eqn:Hrd; [congruence|].
  inversion Hok as [|? ? He Hrest]; subst. simpl in He. subst e.
  simpl. destruct (Nat.leb_spec (length bs) cap) as [Hle|Hgt].
  - exists (length bs), (set_rd c rest w).
    rewrite firstn_app, Nat.sub_diag, firstn_all. simpl. rewrite app_nil_r.
    rewrite skipn_app, Nat.sub_diag, skipn_all. simpl.
    rewrite upd_same, length_app.
    splits; auto using same_but_rd_set; lia.
  - exists cap, (set_rd c ((skipn cap bs, None) :: rest) w).
    rewrite firstn_app. replace (cap - length bs) with 0 by lia.
    simpl. rewrite app_nil_r.
    rewrite skipn_app. replace (cap - length bs) with 0 by lia.
    simpl. rewrite upd_same, length_app. simpl.
    splits; auto using same_but_rd_set; try lia.
    + constructor; auto.
    + intros Hc. rewrite length_skipn. lia.
Qed.

Lemma readLoop_ok : forall fuel c buf lo hi min n w,
  okchunks (rd w c) -> chunks_size (rd w c) < fuel ->
  min <= hi - lo -> hi <= length buf -> n <= hi - lo ->
  min <= n + length (pending w c) ->
  exists k w',
    readLoop fuel c buf lo hi min n None w
      = ((n + k, None, store buf (lo + n) (firstn k (pending w c))), w') /\
    k <= length (pending w c) /\ min <= n + k /\ n + k <= hi - lo /\
    okchunks (rd w' c) /\
    pending w' c = skipn k (pending w c) /\
    same_but_rd c w w'.
Proof.
  induction fuel as [|fuel IH]; intros c buf lo hi min n w Hok Hfuel Hmin Hhi Hn Hav;
    [lia|].
  simpl. destruct (Nat.ltb_spec n min) as [Hlt|Hge].
  - assert (Hne : rd w c <> []).
    { intros E. unfold pending in Hav. rewrite E in Hav. simpl in Hav. lia. }
    destruct (@Read_ok c (hi - (lo + n)) w Hok Hne)
      as (m & w1 & HR & Hm1 & Hm2 & Hp1 & Hok1 & Hsz & Hs1).
    unfold bind. rewrite HR.
    assert (Hlen : length (firstn m (pending w c)) = m)
      by (rewrite length_firstn; lia).
    rewrite Hlen.
    destruct (IH c (store buf (lo + n) (firstn m (pending w c))) lo hi min (n + m) w1)
      as (k & w' & HL & Hk1 & Hk2 & Hk3 & Hok' & Hp' & Hs'); auto; try lia.
    + rewrite store_length; lia.
    + rewrite Hp1, length_skipn. lia.
    + exists (m + k), w'. rewrite HL.
      rewrite Hp1, length_skipn in Hk1.
      splits; auto; try lia.
      * f_equal. f_equal; [f_equal; lia|].
        replace (lo + (n + m)) with (lo + n + length (firstn m (pending w c)))
          by (rewrite Hlen; lia).
        rewrite store_store by lia.
        rewrite firstn_add, Hp1. reflexivity.
      * rewrite Hp', Hp1, skipn_skipn. f_equal. lia.
      * eapply same_but_rd_trans; eauto.
  - exists 0, w. simpl. rewrite Nat.add_0_r, store_nil.
    splits; auto using same_but_rd_refl; lia.
Qed.

Lemma ReadAtLeast_ok c buf lo hi min w :
  okchunks (rd w c) ->
  min <= hi - lo -> hi <= length buf ->
  min <= length (pending w c) ->
  exists k w',
    ReadAtLeast c buf lo hi min w
      = ((k, None, store buf lo (firstn k (pending w c))), w') /\
    k <= length (pending w c) /\ min <= k /\ k <= hi - lo /\
    okchunks (rd w' c) /\
    pending w' c = skipn k (pending w c) /\
    same_but_rd c w w'.
Proof.
  intros Hok Hmin Hhi Hav. unfold ReadAtLeast.
  destruct (Nat.ltb_spec (hi - lo) min) as [Hlt|_]; [lia|].
  destruct (@readLoop_ok (S (chunks_size (rd w c))) c buf lo hi min 0 w)
    as (k & w' & HL & Hk1 & Hk2 & Hk3 & Hok' & Hp' & Hs'); auto; try lia.
  rewrite HL. simpl in *. rewrite Nat.add_0_r.
  destruct (Nat.leb_spec min k) as [_|Hlt]; [|lia].
  exists k, w'. splits; auto.
Qed.

Lemma pending_okChunks w c chunks :
  rd w c = map okChunk chunks ->
  okchunks (rd w c) /\ pending w c = concat chunks.
Proof.
  intros H. unfold pending, okchunks. rewrite H. split.
  - apply Forall_forall. intros ch Hin. apply in_map_iff in Hin.
    destruct Hin as (bs & <- & _). reflexivity.
  - rewrite map_map. simpl. rewrite map_id. reflexivity.
Qed.

(** The sizing discipline of both parsers: a first read of at least [min0]
    bytes into a fresh buffer, topped up to the length of the message when it
    delivered less. *)
Lemma read_message c bufLen min0 msg w :
  okchunks (rd w c) -> pending w c = msg ->
  min0 <= length msg -> length msg <= bufLen ->
  exists k1 w1,
    ReadAtLeast c (make bufLen) 0 bufLen min0 w
      = ((k1, None, store (make bufLen) 0 (firstn k1 msg)), w1) /\
    min0 <= k1 /\ k1 <= length msg /\ same_but_rd c w w1 /\
    (k1 = length msg -> pending w1 c = []) /\
    (k1 < length msg ->
     exists w2,
       ReadFull c (store (make bufLen) 0 (firstn k1 msg)) k1 (length msg) w1
         = ((length msg - k1, None, store (make bufLen) 0 msg), w2) /\
       pending w2 c = [] /\ same_but_rd c w w2).
Proof.
  intros Hok Hp Hmin Hlen. subst msg.
  assert (Hmk : length (make bufLen) = bufLen) by apply repeat_length.
  destruct (@ReadAtLeast_ok c (make bufLen) 0 bufLen min0 w)
    as (k1 & w1 & HR & Hk1 & Hk2 & Hk3 & Hok1 & Hp1 & Hs1); auto; try lia.
  set (msg := pending w c) in *.
  exists k1, w1. splits; auto.
  - intros E. rewrite Hp1, E. apply skipn_all.
  - intros Hlt.
    set (buf1 := store (make bufLen) 0 (firstn k1 msg)).
    assert (Hb1 : length buf1 = bufLen).
    { unfold buf1. rewrite store_length; rewrite ?length_firstn; lia. }
    destruct (@ReadAtLeast_ok c buf1 k1 (length msg) (length msg - k1) w1)
      as (k2 & w2 & HR2 & Hj1 & Hj2 & Hj3 & Hok2 & Hp2 & Hs2); auto; try lia.
    { rewrite Hp1, length_skipn. lia. }
    assert (k2 = length msg - k1) by lia. subst k2.
    exists w2. unfold ReadFull. rewrite HR2. splits.
    + f_equal. f_equal. unfold buf1.
      assert (Hf : length (firstn k1 msg) = k1) by (rewrite length_firstn; lia).
      replace k1 with (0 + length (firstn k1 msg)) at 2 by (rewrite Hf; lia).
      rewrite store_store by lia.
      rewrite Hp1. rewrite (firstn_all2 (n := length msg - k1))
        by (rewrite length_skipn; lia).
      rewrite firstn_skipn. reflexivity.
    + rewrite Hp2, Hp1, skipn_skipn. apply skipn_all2. lia.
    + eapply same_but_rd_trans; eauto.
Qed.

Lemma Write_spec c bs w :
  exists r w',
    Write c bs w = ((match r with None => length bs | Some _ => 0 end, r), w') /\
    r = hd None (wr w c) /\
    trace w' = trace w ++ [EvWrite c bs r] /\
    rd w' = rd w /\ chan w' = chan w /\ dial w' = dial w /\
    wr w' c = tl (wr w c).
Proof.
  unfold Write. destruct (wr w c) as [|[e|] rest] eqn:E.
  - exists None, (emit (EvWrite c bs None) w). simpl. splits; auto.
  - exists (Some e), (emit (EvWrite c bs (Some e)) (set_wr c rest w)).
    simpl. rewrite upd_same. splits; auto.
  - exists None, (emit (EvWrite c bs None) (set_wr c rest w)).
    simpl. rewrite upd_same. splits; auto.
Qed.

(** ** handShake *)

(** C3. A handshake message [05 n m1 ... mn], however the reads cut it, is
    consumed whole (exactly n+2 bytes) and answered by one write of [05 00],
    whatever the method bytes; a first read of more than n+2 bytes fails with
    [errAuthExtraData]; a first byte other than 5 fails with [errVer]. *)
Theorem handShake_negotiation (s : Service) (conn : ConnId) (w : World) :
  (forall chunks nb methods,
      rd w conn = map okChunk chunks ->
      concat chunks = x05 :: nb :: methods ->
      length methods = Byte.to_nat nb ->
      exists r w',
        handShake s conn w = (r, w') /\
        length (pending w conn) = Byte.to_nat nb + 2 /\
        pending w' conn = [] /\
        trace w' = trace w ++ [EvWrite conn [x05; x00] r] /\
        r = hd None (wr w conn)) /\
  (forall n buf w1,
      ReadAtLeast conn (make 258) 0 258 2 w = ((n, None, buf), w1) ->
      byteAt buf 0 = 5 ->
      byteAt buf 1 + 2 < n ->
      handShake s conn w = (Some errAuthExtraData, w1)) /\
  (forall n buf w1,
      ReadAtLeast conn (make 258) 0 258 2 w = ((n, None, buf), w1) ->
      byteAt buf 0 <> 5 ->
      handShake s conn w = (Some errVer, w1)).
Proof.
  splits.
  - intros chunks nb methods Hrd Hmsg Hn.
    destruct (pending_okChunks w conn chunks Hrd) as [Hok Hp].
    rewrite Hmsg in Hp.
    set (msg := x05 :: nb :: methods) in *.
    assert (Hlen : length msg = Byte.to_nat nb + 2) by (simpl; lia).
    pose proof (Byte.to_nat_bounded nb) as Hb.
    destruct (@read_message conn 258 2 msg w Hok Hp)
      as (k1 & w1 & HR & Hk1 & Hk2 & Hs1 & Heq & Hlt); try lia.
    assert (H0 : byteAt (store (make 258) 0 (firstn k1 msg)) 0 = 5).
    { unfold byteAt. rewrite nth_store_0 by (rewrite length_firstn; lia).
      destruct k1 as [|k1]; [lia|]. reflexivity. }
    assert (H1 : byteAt (store (make 258) 0 (firstn k1 msg)) 1 = Byte.to_nat nb).
    { unfold byteAt. rewrite nth_store_0 by (rewrite length_firstn; lia).
      destruct k1 as [|[|k1]]; try lia. reflexivity. }
    unfold handShake, bind. change (idNmethod + 1) with 2. rewrite HR.
    unfold idVer, idNmethod, socksVer5. rewrite H0, H1. change (negb (5 =? 5)) with false. cbv beta iota.
    rewrite <- Hlen.
    destruct (Nat.eqb_spec k1 (length msg)) as [E|NE].
    + unfold ret. cbv beta iota.
      destruct (Write_spec conn [x05; x00] w1) as (r & w' & HW & Hr & Ht & Hrd' & _).
      rewrite HW. exists r, w'.
      destruct Hs1 as (Hwr & _ & _ & Htr & _).
      splits; auto.
      * rewrite Hp. reflexivity.
      * unfold pending in *. rewrite Hrd'. auto.
      * congruence.
      * congruence.
    + destruct (Nat.ltb_spec k1 (length msg)) as [L|G]; [|lia].
      destruct (Hlt L) as (w2 & HF & Hp2 & Hs2).
      rewrite HF. unfold ret. cbv beta iota.
      destruct (Write_spec conn [x05; x00] w2) as (r & w' & HW & Hr & Ht & Hrd' & _).
      rewrite HW. exists r, w'.
      destruct Hs2 as (Hwr & _ & _ & Htr & _).
      splits; auto.
      * rewrite Hp. reflexivity.
      * unfold pending in *. rewrite Hrd'. auto.
      * congruence.
      * congruence.
  - intros n buf w1 HR H0 Hn.
    unfold handShake, bind. change (idNmethod + 1) with 2. rewrite HR.
    unfold idVer, idNmethod, socksVer5. rewrite H0. change (negb (5 =? 5)) with false. cbv beta iota.
    destruct (Nat.eqb_spec n (byteAt buf 1 + 2)); [lia|].
    destruct (Nat.ltb_spec n (byteAt buf 1 + 2)); [lia|].
    reflexivity.
  - intros n buf w1 HR H0.
    unfold handShake, bind. change (idNmethod + 1) with 2. rewrite HR.
    unfold idVer, socksVer5.
    destruct (Nat.eqb_spec (byteAt buf 0) 5); [congruence|]. reflexivity.
Qed.

(** ** getRequest *)

Lemma byteAt_store_firstn bufLen k msg i :
  i < k -> i < length msg ->
  byteAt (store (make bufLen) 0 (firstn k msg)) i = byteAt msg i.
Proof.
  intros Hi Hk. unfold byteAt.
  rewrite nth_store_0 by (rewrite length_firstn; lia).
  rewrite <- (firstn_skipn k msg) at 2.
  rewrite app_nth1 by (rewrite length_firstn; lia). reflexivity.
Qed.

Lemma to_nat_byte_of_nat n : n <= 255 -> Byte.to_nat (byte_of_nat n) = n.
Proof.
  intros H. unfold byte_of_nat.
  destruct (Byte.of_nat n) as [b|] eqn:E.
  - apply Byte.to_of_nat. exact E.
  - apply Byte.of_nat_None_iff in E. lia.
Qed.

Lemma connectRequest_length rsv a port :
  length (connectRequest rsv a port) = 3 + length (encodeAddr a) + 2.
Proof. unfold connectRequest. rewrite !length_app. simpl. lia. Qed.

Lemma reqLen_connectRequest rsv a port :
  addr_ok a ->
  reqLen (connectRequest rsv a port) = Some (length (connectRequest rsv a port)).
Proof.
  intros Ha. rewrite connectRequest_length.
  destruct a as [a|a|d]; simpl in Ha; unfold reqLen, connectRequest, byteAt; simpl nth.
  - simpl. rewrite Ha. reflexivity.
  - simpl. rewrite Ha. reflexivity.
  - rewrite to_nat_byte_of_nat by lia. simpl.
    unfold lenDmBase. f_equal. lia.
Qed.

Lemma readLoop_done fuel c buf lo hi min n err w :
  min <= n -> readLoop fuel c buf lo hi min n err w = ((n, err, buf), w).
Proof.
  intros H. destruct fuel, err; simpl; try reflexivity;
    destruct (Nat.ltb_spec n min); try lia; reflexivity.
Qed.

(** A first chunk that holds [min] bytes or more is all the first read takes. *)
Lemma ReadAtLeast_first_chunk c bufLen min bs e rest w :
  rd w c = (bs, e) :: rest ->
  0 < min -> min <= length bs -> min <= bufLen ->
  exists w1,
    ReadAtLeast c (make bufLen) 0 bufLen min w
      = ((Nat.min (length bs) bufLen, None, store (make bufLen) 0 (firstn bufLen bs)), w1) /\
    trace w1 = trace w.
Proof.
  intros Hrd H0 Hmin Hcap. unfold ReadAtLeast.
  rewrite Nat.sub_0_r.
  destruct (Nat.ltb_spec bufLen min) as [|_]; [lia|].
  cbn [readLoop]. destruct (Nat.ltb_spec 0 min) as [_|]; [|lia].
  unfold bind, Read. rewrite Hrd. simpl "+". rewrite Nat.sub_0_r.
  destruct (Nat.leb_spec (length bs) bufLen) as [Hle|Hgt].
  - rewrite readLoop_done by lia. simpl "+".
    destruct (Nat.leb_spec min (length bs)) as [_|]; [|lia].
    rewrite Nat.min_l by lia. rewrite firstn_all2 by lia.
    eexists. split; reflexivity.
  - rewrite readLoop_done by (rewrite length_firstn; lia). simpl "+".
    rewrite length_firstn.
    destruct (Nat.leb_spec min (Nat.min bufLen (length bs))) as [_|]; [|lia].
    rewrite (Nat.min_comm bufLen).
    eexists. split; reflexivity.
Qed.

(** C4. The expected length that [getRequest] computes is the length of the
    request on the wire: 10 for IPv4, 22 for IPv6, 7 plus the length byte for
    a domain name; and a first read of more bytes than that, as when a
    request comes with trailing bytes, fails with [errReqExtraData]. *)
Theorem getRequest_length (s : Service) (conn : ConnId) (w : World) :
  (forall rsv a port,
      addr_ok a ->
      reqLen (connectRequest rsv a port) = Some (length (connectRequest rsv a port))) /\
  (forall buf,
      (byteAt buf idType = 1 -> reqLen buf = Some 10) /\
      (byteAt buf idType = 4 -> reqLen buf = Some 22) /\
      (byteAt buf idType = 3 -> reqLen buf = Some (7 + byteAt buf idDmLen))) /\
  (forall n buf w1 len,
      ReadAtLeast conn (make 263) 0 263 5 w = ((n, None, buf), w1) ->
      byteAt buf idVer = 5 -> byteAt buf idCmd = 1 ->
      reqLen buf = Some len -> len < n ->
      getRequest s conn w = (([], None, Some errReqExtraData), w1)) /\
  (forall rsv a port extra e rest,
      addr_ok a -> extra <> [] ->
      rd w conn = (connectRequest rsv a port ++ extra, e) :: rest ->
      exists w1,
        getRequest s conn w = (([], None, Some errReqExtraData), w1) /\
        trace w1 = trace w).
Proof.
  assert (Hextra : forall n buf w1 len,
      ReadAtLeast conn (make 263) 0 263 5 w = ((n, None, buf), w1) ->
      byteAt buf idVer = 5 -> byteAt buf idCmd = 1 ->
      reqLen buf = Some len -> len < n ->
      getRequest s conn w = (([], None, Some errReqExtraData), w1)).
  { intros n buf w1 len HR Hv Hc Hl Hn.
    unfold getRequest, bind. change (idDmLen + 1) with 5. rewrite HR.
    rewrite Hv, Hc, Hl. change (negb (5 =? socksVer5)) with false.
    change (negb (1 =? socksCmdConnect)) with false. cbv beta iota.
    destruct (Nat.eqb_spec n len); [lia|].
    destruct (Nat.ltb_spec n len); [lia|]. reflexivity. }
  splits.
  - intros; apply reqLen_connectRequest; auto.
  - intros buf. unfold reqLen. splits; intros ->; try reflexivity.
    simpl. f_equal. unfold lenDmBase. lia.
  - exact Hextra.
  - intros rsv a port extra e rest Ha Hex Hrd.
    set (req := connectRequest rsv a port) in *.
    assert (Hlen : 7 <= length req /\ length req <= 262).
    { unfold req. rewrite connectRequest_length.
      destruct a as [a|a|d]; simpl in *; lia. }
    assert (Hex' : 0 < length extra) by (destruct extra; simpl; [congruence|lia]).
    destruct (@ReadAtLeast_first_chunk conn 263 5 (req ++ extra) e rest w Hrd)
      as (w1 & HR & Ht); try lia.
    { rewrite length_app. lia. }
    exists w1. split; auto.
    assert (Hb : forall i, i < 5 ->
      byteAt (store (make 263) 0 (firstn 263 (req ++ extra))) i = byteAt req i).
    { intros i Hi. rewrite byteAt_store_firstn; try lia.
      - unfold byteAt. rewrite app_nth1 by lia. reflexivity.
      - rewrite length_app. lia. }
    apply (Hextra _ _ _ (length req) HR).
    + rewrite Hb by (unfold idVer; lia). reflexivity.
    + rewrite Hb by (unfold idCmd; lia). reflexivity.
    + unfold reqLen. rewrite !Hb by (unfold idType, idDmLen; lia).
      apply (reqLen_connectRequest rsv). exact Ha.
    + rewrite length_app. lia.
Qed.




(** ** What calls leave unchanged *)

Lemma Read_frame c cap w : same_but_rd c w (snd (Read c cap w)).
Proof.
  unfold Read. destruct (rd w c) as [|[bs e] rest].
  - apply same_but_rd_refl.
  - destruct (length bs <=? cap); apply same_but_rd_set.
Qed.

Lemma readLoop_frame fuel : forall c buf lo hi min n err w,
  same_but_rd c w (snd (readLoop fuel c buf lo hi min n err w)).
Proof.
  induction fuel as [|fuel IH]; intros; simpl;
    destruct err; try apply same_but_rd_refl;
    destruct (n <? min); try apply same_but_rd_refl.
  unfold bind.
  pose proof (Read_frame c (hi - (lo + n)) w) as HF.
  destruct (Read c (hi - (lo + n)) w) as [[bs e] w1]. simpl in HF.
  eapply same_but_rd_trans; [exact HF|]. apply IH.
Qed.

Lemma ReadAtLeast_frame c buf lo hi min w :
  same_but_rd c w (snd (ReadAtLeast c buf lo hi min w)).
Proof.
  unfold ReadAtLeast. destruct (hi - lo <? min); [apply same_but_rd_refl|].
  pose proof (readLoop_frame (S (chunks_size (rd w c))) c buf lo hi min 0 None w) as HF.
  destruct (readLoop _ c buf lo hi min 0 None w) as [[[n err] buf'] w'].
  simpl in HF.
  destruct (min <=? n); auto.
  destruct err as [[]|]; auto. destruct (0 <? n); auto.
Qed.

Lemma getRequest_frame s conn w : same_but_rd conn w (snd (getRequest s conn w)).
Proof.
  unfold getRequest, bind.
  pose proof (ReadAtLeast_frame conn (make 263) 0 263 (idDmLen + 1) w) as HF.
  destruct (ReadAtLeast _ _ _ _ _ w) as [[[n err] buf] w1]. simpl in HF.
  destruct err; [exact HF|].
  destruct (negb _); [exact HF|]. destruct (negb _); [exact HF|].
  destruct (reqLen buf) as [len|]; [|exact HF].
  destruct (n =? len); [exact HF|].
  destruct (n <? len); [|exact HF].
  pose proof (ReadAtLeast_frame conn buf n len (len - n) w1) as HF2.
  unfold ReadFull.
  destruct (ReadAtLeast _ _ _ _ _ w1) as [[[n2 err2] buf2] w2]. simpl in HF2.
  unfold ret. simpl.
  destruct err2; simpl; eapply same_but_rd_trans; eauto.
Qed.

(** A handshake that succeeds has written its answer, and nothing else. *)
Lemma handShake_success s conn w w1 :
  handShake s conn w = (None, w1) ->
  trace w1 = trace w ++ [EvWrite conn [x05; x00] None] /\ dial w1 = dial w.
Proof.
  unfold handShake, bind.
  pose proof (ReadAtLeast_frame conn (make 258) 0 258 (idNmethod + 1) w) as HF.
  destruct (ReadAtLeast _ _ _ _ _ w) as [[[n err] buf] wa]. simpl in HF.
  destruct err; [discriminate|].
  destruct (negb _); [discriminate|].
  assert (Hw : forall wb, same_but_rd conn w wb ->
    (let (a0, w'1) := Write conn [x05; x00] wb in (let '(_, err) := a0 in ret err) w'1)
      = (None, w1) ->
    trace w1 = trace w ++ [EvWrite conn [x05; x00] None] /\ dial w1 = dial w).
  { intros wb (_ & _ & Hd & Ht & _) H.
    destruct (Write_spec conn [x05; x00] wb) as (r & w' & HW & _ & Htr & _ & _ & Hdl & _).
    rewrite HW in H. unfold ret in H. inversion H; subst. split; congruence. }
  destruct (n =? _).
  - unfold ret. cbv beta iota. apply Hw. exact HF.
  - destruct (n <? _); [|discriminate].
    pose proof (ReadAtLeast_frame conn buf n (byteAt buf idNmethod + 2)
                  (byteAt buf idNmethod + 2 - n) wa) as HF2.
    unfold ReadFull.
    destruct (ReadAtLeast _ _ _ _ _ wa) as [[[n2 err2] buf2] wb]. simpl in HF2.
    unfold ret. cbv beta iota.
    destruct err2; [discriminate|].
    apply Hw. eapply same_but_rd_trans; eauto.
Qed.

(** ** The relay loop *)

Lemma recvCh_spec w :
  exists w1,
    recvCh w = (hd false (chan w), w1) /\
    rd w1 = rd w /\ wr w1 = wr w /\ dial w1 = dial w /\ trace w1 = trace w.
Proof.
  unfold recvCh. destruct (chan w) as [|b rest]; eexists; splits; reflexivity.
Qed.


Lemma pipeIter_events bufSize s src dst dir w :
  exists evs,
    trace (snd (pipeIter bufSize s src dst dir w)) = trace w ++ evs /\
    dial (snd (pipeIter bufSize s src dst dir w)) = dial w /\
    (evs = [] \/
     (exists bs, evs = EvWrite dst bs None :: callback s dir (length bs) /\
                 fst (pipeIter bufSize s src dst dir w) <> Return) \/
     (exists bs e, evs = [EvWrite dst bs (Some e); EvPrintln "write:"%string] /\
                   fst (pipeIter bufSize s src dst dir w) = Break)).
Proof.
  unfold pipeIter, bind.
  destruct (recvCh_spec w) as (w1 & Hc & _ & _ & Hd1 & Ht1). rewrite Hc.
  destruct (hd false (chan w)).
  { exists []. simpl. rewrite app_nil_r. auto. }
  pose proof (Read_frame src bufSize w1) as (_ & _ & Hd2 & Ht2 & _).
  destruct (Read src bufSize w1) as [[bs err] w2]. simpl in Hd2, Ht2.
  destruct (0 <? length bs).
  - destruct (Write_spec dst bs w2) as (r & w3 & HW & _ & Ht3 & _ & _ & Hd3 & _).
    rewrite HW. destruct r as [e|].
    + exists [EvWrite dst bs (Some e); EvPrintln "write:"%string]. simpl.
      rewrite Ht3, Ht2, Ht1, <- app_assoc.
      splits; [reflexivity|congruence|right; right; eauto].
    + exists (EvWrite dst bs None :: callback s dir (length bs)).
      assert (Hbase : trace w3 = trace w ++ [EvWrite dst bs None]) by congruence.
      assert (Hdl : dial w3 = dial w) by congruence.
      unfold callback.
      destruct (trafficListener s) as [l|];
        [destruct (dir =? directionOutput); [|destruct (dir =? directionInput)]|];
        (destruct err as [e|]; [destruct (isTimeout e)|]);
        simpl; rewrite ?Hbase, <- ?app_assoc; simpl;
        (splits; [reflexivity|exact Hdl|]);
        right; left; exists bs; (split; [reflexivity|congruence]).
  - exists []. rewrite app_nil_r.
    destruct err as [e|]; try destruct (isTimeout e); simpl; splits; auto; congruence.
Qed.

Lemma pipeLoop_events bufSize s src dst dir : forall fuel w,
  exists evs,
    trace (snd (pipeLoop bufSize fuel s src dst dir w)) = trace w ++ evs /\
    dial (snd (pipeLoop bufSize fuel s src dst dir w)) = dial w /\
    relay_events s dst dir (fst (pipeLoop bufSize fuel s src dst dir w)) evs.
Proof.
  induction fuel as [|fuel IH]; intros w.
  - exists []. simpl. rewrite app_nil_r. splits; auto. constructor.
  - cbn [pipeLoop]. unfold bind.
    destruct (pipeIter_events bufSize s src dst dir w) as (evs & Ht & Hd & Hshape).
    destruct (pipeIter bufSize s src dst dir w) as [c w1]. simpl in Ht, Hd, Hshape.
    destruct (IH w1) as (rest & Ht' & Hd' & Hrel).
    destruct Hshape as [->|[(bs & -> & Hc)|(bs & e & -> & ->)]].
    + destruct c.
      * exists rest. rewrite Ht', Ht, app_nil_r. splits; auto. congruence.
      * exists []. simpl. rewrite Ht. splits; auto. constructor.
      * exists []. simpl. rewrite Ht. splits; auto. constructor.
    + destruct c; [| |congruence].
      * exists ((EvWrite dst bs None :: callback s dir (length bs)) ++ rest).
        rewrite Ht', Ht, <- app_assoc. splits; auto; try congruence.
        simpl. constructor. exact Hrel.
      * exists (EvWrite dst bs None :: callback s dir (length bs) ++ []).
        simpl. rewrite app_nil_r. splits; auto.
        rewrite <- (app_nil_r (callback _ _ _)). constructor. constructor.
    + exists [EvWrite dst bs (Some e); EvPrintln "write:"%string].
      simpl. splits; auto. constructor.
Qed.


Lemma callback_shape s dir n :
  callback s dir n = [] \/
  exists l, trafficListener s = Some l /\
    ((callback s dir n = [EvSent l n] /\ dir = directionOutput) \/
     (callback s dir n = [EvReceived l n] /\ dir = directionInput)).
Proof.
  unfold callback. destruct (trafficListener s) as [l|]; auto.
  destruct (Nat.eqb_spec dir directionOutput).
  { right. exists l. auto. }
  destruct (Nat.eqb_spec dir directionInput); auto.
  right. exists l. auto.
Qed.

(** Where an event of a relay trace stands. *)
Lemma relay_events_split s dst dir x evs :
  relay_events s dst dir x evs ->
  forall pre ev post, evs = pre ++ ev :: post ->
    (exists bs post', ev = EvWrite dst bs None /\
                      post = callback s dir (length bs) ++ post') \/
    (exists bs pre', pre = pre' ++ [EvWrite dst bs None] /\
                     callback s dir (length bs) = [ev]) \/
    (exists bs e, ev = EvWrite dst bs (Some e) /\
                  post = [EvPrintln "write:"%string] /\ x = true) \/
    ev = EvPrintln "write:"%string.
Proof.
  induction 1 as [| |bs rest x Hrel IH|bs e]; intros pre ev post E.
  - destruct pre; discriminate.
  - destruct pre; discriminate.
  - destruct pre as [|p pre]; simpl in E.
    + inversion E; subst. left. eauto.
    + inversion E as [[Hp E']]. subst p.
      destruct (callback_shape s dir (length bs)) as [Hcb|(l & _ & Hcb)].
      * rewrite Hcb in E'. simpl in E'.
        destruct (IH _ _ _ E') as [H1|[(bs' & pre' & -> & Hc)|[H3|H4]]]; auto.
        right; left. exists bs', (EvWrite dst bs None :: pre'). auto.
      * assert (Hone : exists cb, callback s dir (length bs) = [cb])
          by (destruct Hcb as [[-> _]|[-> _]]; eauto).
        destruct Hone as (cb & Hone). rewrite Hone in E'. simpl in E'.
        destruct pre as [|q pre]; simpl in E'.
        -- inversion E'; subst. right; left. exists bs, []. auto.
        -- inversion E' as [[Hq E'']]. subst q.
           destruct (IH _ _ _ E'') as [H1|[(bs' & pre' & -> & Hc)|[H3|H4]]]; auto.
           right; left. exists bs', (EvWrite dst bs None :: cb :: pre'). auto.
  - destruct pre as [|p [|q pre]]; simpl in E.
    + inversion E; subst. right; right; left. eauto.
    + inversion E; subst. auto.
    + inversion E as [[Hp Hq E']]. destruct pre; discriminate.
Qed.

(** C8. In the trace of the relay loop every successful write is to the
    destination and, when a listener is attached, is followed at once by the
    call of [Sent] (outbound) or [Received] (inbound) with the count of the
    bytes written; without a listener no such call is made; every such call
    follows a successful write; and a failed write is followed by its log
    line only, after which the loop has been left. *)
Theorem pipeLoop_traffic (bufSize fuel : nat) (s : Service) (src dst : ConnId)
    (dir : nat) (w : World) :
  exists evs,
    trace (snd (pipeLoop bufSize fuel s src dst dir w)) = trace w ++ evs /\
    (forall pre c bs post,
        evs = pre ++ EvWrite c bs None :: post ->
        c = dst /\
        forall l, trafficListener s = Some l ->
          (dir = directionOutput -> hd_error post = Some (EvSent l (length bs))) /\
          (dir = directionInput -> hd_error post = Some (EvReceived l (length bs)))) /\
    (trafficListener s = None -> forall ev, In ev evs -> isCallback ev = false) /\
    (forall pre ev post,
        evs = pre ++ ev :: post -> isCallback ev = true ->
        exists pre' bs l,
          pre = pre' ++ [EvWrite dst bs None] /\ trafficListener s = Some l /\
          ((ev = EvSent l (length bs) /\ dir = directionOutput) \/
           (ev = EvReceived l (length bs) /\ dir = directionInput))) /\
    (forall pre c bs e post,
        evs = pre ++ EvWrite c bs (Some e) :: post ->
        c = dst /\ post = [EvPrintln "write:"%string] /\
        fst (pipeLoop bufSize fuel s src dst dir w) = true).
Proof.
  destruct (pipeLoop_events bufSize s src dst dir fuel w) as (evs & Ht & _ & Hrel).
  exists evs. split; [exact Ht|].
  assert (Hcall : forall pre ev post,
        evs = pre ++ ev :: post -> isCallback ev = true ->
        exists pre' bs l,
          pre = pre' ++ [EvWrite dst bs None] /\ trafficListener s = Some l /\
          ((ev = EvSent l (length bs) /\ dir = directionOutput) \/
           (ev = EvReceived l (length bs) /\ dir = directionInput))).
  { intros pre ev post E Hcb.
    destruct (relay_events_split _ _ _ _ _ Hrel _ _ _ E)
      as [(bs & post' & -> & _)|[(bs & pre' & -> & Hc)|[(bs & e & -> & _)| -> ]]];
      try discriminate.
    exists pre', bs.
    destruct (callback_shape s dir (length bs)) as [Hn|(l & Hl & Hs)]; [congruence|].
    exists l. splits; auto.
    destruct Hs as [[Hs Hd]|[Hs Hd]]; rewrite Hs in Hc; inversion Hc; auto. }
  splits.
  - intros pre c bs post E.
    destruct (relay_events_split _ _ _ _ _ Hrel _ _ _ E)
      as [(bs' & post' & Hev & ->)|[(bs' & pre' & -> & Hc)|[(bs' & e & Hev & _)|Hev]]];
      try discriminate.
    + inversion Hev; subst. split; auto.
      intros l Hl. unfold callback. rewrite Hl.
      split; intros ->; reflexivity.
    + destruct (callback_shape s dir (length bs')) as [Hn|(l & Hl & Hs)]; [congruence|].
      destruct Hs as [[Hs _]|[Hs _]]; rewrite Hs in Hc; discriminate.
  - intros Hnone ev Hin.
    destruct (isCallback ev) eqn:Hcb; auto.
    apply in_split in Hin. destruct Hin as (pre & post & E).
    destruct (Hcall _ _ _ E Hcb) as (_ & _ & l & _ & Hl & _). congruence.
  - exact Hcall.
  - intros pre c bs e post E.
    destruct (relay_events_split _ _ _ _ _ Hrel _ _ _ E)
      as [(bs' & post' & Hev & _)|[(bs' & pre' & -> & Hc)|[(bs' & e' & Hev & -> & Hx)|Hev]]];
      try discriminate.
    + destruct (callback_shape s dir (length bs')) as [Hn|(l & Hl & Hs)]; [congruence|].
      destruct Hs as [[Hs _]|[Hs _]]; rewrite Hs in Hc; discriminate.
    + inversion Hev; subst. auto.
Qed.

(** The relay loop is left: each iteration that continues has taken
    something from what the source had to deliver. *)
Lemma Read_progress c cap w :
  0 < cap -> rd w c <> [] ->
  chunks_size (rd (snd (Read c cap w)) c) < chunks_size (rd w c).
Proof.
  intros Hcap Hne. unfold Read.
  destruct (rd w c) as [|[bs e] rest] eqn:E; [congruence|].
  destruct (Nat.leb_spec (length bs) cap); simpl; rewrite upd_same; simpl.
  - lia.
  - rewrite length_skipn. lia.
Qed.

Lemma Read_length c cap w : length (fst (fst (Read c cap w))) <= cap.
Proof.
  unfold Read. destruct (rd w c) as [|[bs e] rest]; simpl; [lia|].
  destruct (Nat.leb_spec (length bs) cap); simpl; [lia|].
  rewrite length_firstn. lia.
Qed.

(** The reads that [ReadAtLeast] is given are enough: one more changes
    nothing, so that the loop never ends for want of fuel. *)
Lemma readLoop_fuel : forall fuel c buf lo hi min n err w,
  chunks_size (rd w c) < fuel -> min <= hi - lo -> n <= hi - lo ->
  readLoop (S fuel) c buf lo hi min n err w = readLoop fuel c buf lo hi min n err w.
Proof.
  induction fuel as [|fuel IH]; intros c buf lo hi min n err w Hf Hmin Hn; [lia|].
  destruct err as [e|]; [reflexivity|].
  cbn [readLoop]. destruct (Nat.ltb_spec n min) as [Hlt|Hge]; [|reflexivity].
  unfold bind.
  pose proof (Read_length c (hi - (lo + n)) w) as Hlen.
  destruct (rd w c) as [|ch rest] eqn:Hrd.
  - unfold Read. rewrite Hrd. destruct fuel; reflexivity.
  - assert (Hne : rd w c <> []) by congruence.
    assert (Hcap : 0 < hi - (lo + n)) by lia.
    pose proof (Read_progress c (hi - (lo + n)) w Hcap Hne) as Hp.
    destruct (Read c (hi - (lo + n)) w) as [[bs e] w1]. simpl in Hlen, Hp.
    apply IH; try lia. rewrite Hrd in Hp. lia.
Qed.

Lemma pipeIter_progress bufSize s src dst dir w :
  0 < bufSize ->
  fst (pipeIter bufSize s src dst dir w) = Continue ->
  chunks_size (rd (snd (pipeIter bufSize s src dst dir w)) src)
    < chunks_size (rd w src).
Proof.
  intros Hpos. unfold pipeIter, bind.
  destruct (recvCh_spec w) as (w1 & Hc & Hrd1 & _). rewrite Hc.
  destruct (hd false (chan w)); [discriminate|].
  rewrite <- Hrd1.
  destruct (rd w1 src) as [|ch rest] eqn:Hsrc.
  - unfold Read. rewrite Hsrc. simpl. discriminate.
  - assert (Hne : rd w1 src <> []) by congruence.
    pose proof (Read_progress src bufSize w1 Hpos Hne) as Hlt.
    rewrite Hsrc in Hlt.
    destruct (Read src bufSize w1) as [[bs err] w2]. simpl in Hlt.
    destruct (0 <? length bs).
    + destruct (Write_spec dst bs w2) as (r & w3 & HW & _ & _ & Hrd3 & _).
      rewrite HW. rewrite <- Hrd3 in Hlt.
      destruct r as [e|]; [discriminate|].
      destruct (trafficListener s) as [l|];
        [destruct (dir =? directionOutput); [|destruct (dir =? directionInput)]|];
        (destruct err as [e|]; [destruct (isTimeout e)|]);
        simpl; intros; try discriminate; exact Hlt.
    + destruct err as [e|]; [destruct (isTimeout e)|];
        simpl; intros; try discriminate; exact Hlt.
Qed.

Lemma pipeLoop_exits bufSize s src dst dir : forall fuel w,
  0 < bufSize -> chunks_size (rd w src) < fuel ->
  fst (pipeLoop bufSize fuel s src dst dir w) = true.
Proof.
  induction fuel as [|fuel IH]; intros w Hpos Hfuel; [lia|].
  cbn [pipeLoop]. unfold bind.
  pose proof (pipeIter_progress bufSize s src dst dir w Hpos) as Hp.
  destruct (pipeIter bufSize s src dst dir w) as [[| |] w1]; simpl in Hp; auto.
  apply IH; auto. specialize (Hp eq_refl). lia.
Qed.

Lemma pipeThenClose_events bufSize s src dst dir w :
  exists evs,
    relay_events s dst dir (fst (pipeThenClose bufSize s src dst dir w)) evs /\
    dial (snd (pipeThenClose bufSize s src dst dir w)) = dial w /\
    trace (snd (pipeThenClose bufSize s src dst dir w))
      = trace w ++ EvBufGet :: evs
          ++ (if fst (pipeThenClose bufSize s src dst dir w)
              then [EvBufPut; EvClose dst] else []).
Proof.
  unfold pipeThenClose, bind, event_, Close. cbv beta iota.
  destruct (pipeLoop_events bufSize s src dst dir
              (S (chunks_size (rd w src))) (emit EvBufGet w))
    as (evs & Ht & Hd & Hrel).
  destruct (pipeLoop bufSize (S (chunks_size (rd w src))) s src dst dir (emit EvBufGet w))
    as [x w1].
  simpl in Ht, Hd, Hrel. exists evs.
  destruct x; unfold ret, event_; simpl; rewrite ?Ht, <- ?app_assoc; simpl;
    splits; auto.
  rewrite app_nil_r. reflexivity.
Qed.

Lemma pipeThenClose_exits bufSize s src dst dir w :
  0 < bufSize -> fst (pipeThenClose bufSize s src dst dir w) = true.
Proof.
  intros Hpos. unfold pipeThenClose, bind, event_, Close. cbv beta iota.
  assert (Hx : fst (pipeLoop bufSize (S (chunks_size (rd w src))) s src dst dir
                      (emit EvBufGet w)) = true)
    by (apply pipeLoop_exits; [exact Hpos|apply Nat.lt_succ_diag_r]).
  destruct (pipeLoop bufSize (S (chunks_size (rd w src))) s src dst dir (emit EvBufGet w))
    as [x w1].
  simpl in Hx. subst x. reflexivity.
Qed.

Lemma relay_events_quiet s dst dir x evs :
  relay_events s dst dir x evs ->
  forall ev, In ev evs -> isDial ev = false /\ forall c, isClose c ev = false.
Proof.
  induction 1 as [| |bs rest x Hrel IH|bs e]; intros ev Hin.
  - destruct Hin.
  - destruct Hin.
  - destruct Hin as [<-|Hin]; [auto|].
    apply in_app_or in Hin. destruct Hin as [Hin|Hin]; auto.
    destruct (callback_shape s dir (length bs)) as [Hn|(l & _ & [[Hs _]|[Hs _]])];
      rewrite ?Hn, ?Hs in Hin; simpl in Hin; try tauto;
      destruct Hin as [<-|[]]; auto.
  - destruct Hin as [<-|[<-|[]]]; auto.
Qed.

(** ** Traces and schedules *)

Lemma closes_app c a b : closes c (a ++ b) = closes c a + closes c b.
Proof. unfold closes. rewrite filter_app, length_app. reflexivity. Qed.

Lemma closes_none c tr :
  (forall ev, In ev tr -> isClose c ev = false) -> closes c tr = 0.
Proof.
  unfold closes. induction tr as [|ev tr IH]; intros H; simpl; auto.
  rewrite (H ev) by (left; reflexivity). apply IH. intros; apply H; right; auto.
Qed.

Lemma closes_merge c (l r m : list event) :
  merge l r m -> closes c m = closes c l + closes c r.
Proof.
  unfold closes. induction 1 as [|a l r m _ IH|a l r m _ IH]; simpl; auto;
    destruct (isClose c a); simpl; rewrite IH; lia.
Qed.

(** ** The connection handler *)

(** A run of the handler past the handshake and the request. *)
Lemma handleConnection_run bufSize s conn w0 w1 w2 raw host :
  handShake s conn w0 = (None, w1) ->
  getRequest s conn w1 = ((raw, host, None), w2) ->
  let r := hd None (wr w2 conn) in
  let head :=
    EvWrite conn confirmation r
      :: match r with
         | Some _ => [EvPrintln "send connection confirmation:"%string]
         | None => []
         end
      ++ [EvPrintln "connected to"%string; EvDial raw (server (serverCipher s))] in
  (forall e, dial w2 = Some e ->
     exists w',
       handleConnection bufSize s conn w0 = ((true, None), w') /\
       trace w' = trace w2 ++ head ++ [EvPrintln "dial:"%string; EvClose conn; EvWgDone]) /\
  (dial w2 = None ->
     exists w3 w',
       trace w3 = trace w2 ++ head ++ [EvWgAdd 1; EvGo] /\
       handleConnection bufSize s conn w0
         = ((fst (pipeThenClose bufSize s conn RemoteConn directionOutput w3),
             Some (remoteToLocal bufSize s RemoteConn conn)), w') /\
       trace w'
         = trace (snd (pipeThenClose bufSize s conn RemoteConn directionOutput w3))
             ++ (if fst (pipeThenClose bufSize s conn RemoteConn directionOutput w3)
                 then [EvPrintln "closed connection to"%string; EvClose conn; EvWgDone]
                 else [])).
Proof.
  intros Hhs Hgr r head.
  destruct (Write_spec conn confirmation w2)
    as (r' & wa & HW & Hr & Hta & _ & _ & Hda & _).
  fold r in Hr. subst r'.
  unfold handleConnection, handleConnection_body, bind.
  rewrite Hhs, Hgr. cbv beta iota. rewrite HW.
  unfold DialWithRawAddr, Println, event_, Close, ret.
  split.
  - intros e He. subst head.
    destruct r; simpl; rewrite Hda, He; simpl; eexists; (split; [reflexivity|]);
      simpl; rewrite Hta, <- !app_assoc; reflexivity.
  - intros Hn. subst head.
    destruct r; simpl; rewrite Hda, Hn; simpl.
    + match goal with
      | |- context [pipeThenClose bufSize s conn RemoteConn directionOutput ?w] =>
          exists w; destruct (pipeThenClose bufSize s conn RemoteConn directionOutput w)
            as [[|] w4]
      end; simpl; eexists; (splits; [|reflexivity|]); simpl;
        rewrite ?Hta, <- ?app_assoc, ?app_nil_r; reflexivity.
    + match goal with
      | |- context [pipeThenClose bufSize s conn RemoteConn directionOutput ?w] =>
          exists w; destruct (pipeThenClose bufSize s conn RemoteConn directionOutput w)
            as [[|] w4]
      end; simpl; eexists; (splits; [|reflexivity|]); simpl;
        rewrite ?Hta, <- ?app_assoc, ?app_nil_r; reflexivity.
Qed.

Lemma pipeThenClose_closes bufSize s src dst dir w :
  0 < bufSize ->
  exists evs,
    fst (pipeThenClose bufSize s src dst dir w) = true /\
    trace (snd (pipeThenClose bufSize s src dst dir w)) = trace w ++ evs /\
    (forall ev, In ev evs -> isDial ev = false) /\
    forall c, closes c evs = if ConnId_eqb c dst then 1 else 0.
Proof.
  intros Hpos.
  destruct (pipeThenClose_events bufSize s src dst dir w) as (evs & Hrel & _ & Ht).
  rewrite (pipeThenClose_exits bufSize s src dst dir w Hpos) in *.
  pose proof (relay_events_quiet _ _ _ _ _ Hrel) as Hq.
  exists (EvBufGet :: evs ++ [EvBufPut; EvClose dst]). splits; auto.
  - intros ev [<-|Hin]; auto. apply in_app_or in Hin.
    destruct Hin as [Hin|[<-|[<-|[]]]]; auto. apply Hq; auto.
  - intros c. change (EvBufGet :: evs ++ [EvBufPut; EvClose dst])
      with ([EvBufGet] ++ evs ++ [EvBufPut; EvClose dst]).
    rewrite !closes_app.
    rewrite (closes_none c evs) by (intros; apply Hq; auto).
    unfold closes. simpl. destruct (ConnId_eqb c dst); reflexivity.
Qed.

(** C9. Once the handshake and the request have been read, the handler
    writes the ten bytes [05 00 00 01 00 00 00 00 08 43] to the client; only
    log lines separate that write from the dial of the tunnel, which comes
    after it, and nothing is dialled a second time. *)
Theorem handleConnection_confirmation (bufSize : nat) (s : Service) (conn : ConnId)
    (w0 w1 w2 : World) (raw : list byte) (host : option HostPort) :
  handShake s conn w0 = (None, w1) ->
  getRequest s conn w1 = ((raw, host, None), w2) ->
  exists r logs rest,
    trace (snd (handleConnection bufSize s conn w0))
      = trace w0
          ++ [EvWrite conn [x05; x00] None;
              EvWrite conn [x05; x00; x00; x01; x00; x00; x00; x00; x08; x43] r]
          ++ logs ++ EvDial raw (server (serverCipher s)) :: rest /\
    (forall ev, In ev logs -> exists msg, ev = EvPrintln msg) /\
    (forall ev, In ev rest -> isDial ev = false).
Proof.
  intros Hhs Hgr.
  destruct (handShake_success s conn w0 w1 Hhs) as (Ht1 & _).
  pose proof (getRequest_frame s conn w1) as (_ & _ & _ & Ht2 & _).
  rewrite Hgr in Ht2. simpl in Ht2.
  destruct (handleConnection_run bufSize s conn w0 w1 w2 raw host Hhs Hgr)
    as (Hfail & Hok).
  set (r := hd None (wr w2 conn)) in *.
  exists r,
    (match r with
     | Some _ => [EvPrintln "send connection confirmation:"%string]
     | None => []
     end ++ [EvPrintln "connected to"%string]).
  destruct (dial w2) as [e|].
  - destruct (Hfail e eq_refl) as (w' & HH & Ht).
    exists [EvPrintln "dial:"%string; EvClose conn; EvWgDone].
    rewrite HH. simpl snd. rewrite Ht, Ht2, Ht1. splits.
    + norm_trace. reflexivity.
    + intros ev Hin. apply in_app_or in Hin.
      destruct Hin as [Hin|[<-|[]]]; eauto.
      destruct r; simpl in Hin; [destruct Hin as [<-|[]]; eauto|tauto].
    + intros ev [<-|[<-|[<-|[]]]]; reflexivity.
  - destruct (Hok eq_refl) as (w3 & w' & Ht3 & HH & Ht).
    destruct (pipeThenClose_events bufSize s conn RemoteConn directionOutput w3)
      as (evs & Hrel & _ & Htp).
    pose proof (relay_events_quiet _ _ _ _ _ Hrel) as Hq.
    set (x := fst (pipeThenClose bufSize s conn RemoteConn directionOutput w3)) in *.
    exists ([EvWgAdd 1; EvGo] ++ EvBufGet :: evs
            ++ (if x then [EvBufPut; EvClose RemoteConn] else [])
            ++ (if x then [EvPrintln "closed connection to"%string; EvClose conn; EvWgDone]
                else [])).
    rewrite HH. simpl snd. rewrite Ht, Htp, Ht3, Ht2, Ht1. splits.
    + norm_trace. reflexivity.
    + intros ev Hin. apply in_app_or in Hin.
      destruct Hin as [Hin|[<-|[]]]; eauto.
      destruct r; simpl in Hin; [destruct Hin as [<-|[]]; eauto|tauto].
    + intros ev Hin. simpl in Hin.
      destruct Hin as [<-|[<-|[<-|Hin]]]; auto.
      apply in_app_or in Hin. destruct Hin as [Hin|Hin]; [apply Hq; auto|].
      apply in_app_or in Hin.
      destruct Hin as [Hin|Hin]; destruct x; simpl in Hin;
        repeat (destruct Hin as [<-|Hin]; auto); tauto.
Qed.


(** C2, as the code has it. A relay closes its destination, once, and never
    its source. For a connection that reaches the relays, under every
    schedule of the two goroutines, when both relays and the handler have
    returned the remote connection has been closed once, by the relay local
    to remote, and the client connection twice: by the relay remote to local
    and by the deferred [conn.Close()] of the handler. *)
Theorem handleConnection_closes (bufSize : nat) (s : Service) :
  0 < bufSize ->
  (forall src dst dir w,
      exists evs,
        fst (pipeThenClose bufSize s src dst dir w) = true /\
        trace (snd (pipeThenClose bufSize s src dst dir w)) = trace w ++ evs /\
        closes dst evs = 1 /\
        forall c, c <> dst -> closes c evs = 0) /\
  (forall w0 w1 w2 raw host wt,
      handShake s ClientConn w0 = (None, w1) ->
      getRequest s ClientConn w1 = ((raw, host, None), w2) ->
      dial w2 = None ->
      exists task pre post evt,
        fst (handleConnection bufSize s ClientConn w0) = (true, Some task) /\
        trace (snd (handleConnection bufSize s ClientConn w0))
          = trace w0 ++ pre ++ EvGo :: post /\
        closes ClientConn pre = 0 /\ closes RemoteConn pre = 0 /\
        fst (task wt) = true /\
        trace (snd (task wt)) = trace wt ++ evt /\
        forall m, merge post evt m ->
                  closes RemoteConn m = 1 /\ closes ClientConn m = 2).
Proof.
  intros Hpos. split.
  - intros src dst dir w.
    destruct (pipeThenClose_closes bufSize s src dst dir w Hpos)
      as (evs & Hx & Ht & _ & Hc).
    exists evs. splits; auto.
    + rewrite Hc. destruct (ConnId_eqb_spec dst dst); congruence.
    + intros c Hne. rewrite Hc. destruct (ConnId_eqb_spec c dst); congruence.
  - intros w0 w1 w2 raw host wt Hhs Hgr Hd.
    destruct (handShake_success s ClientConn w0 w1 Hhs) as (Ht1 & _).
    pose proof (getRequest_frame s ClientConn w1) as (_ & _ & _ & Ht2 & _).
    rewrite Hgr in Ht2. simpl in Ht2.
    destruct (handleConnection_run bufSize s ClientConn w0 w1 w2 raw host Hhs Hgr)
      as (_ & Hok).
    destruct (Hok Hd) as (w3 & w' & Ht3 & HH & Ht). clear Hok.
    destruct (pipeThenClose_closes bufSize s ClientConn RemoteConn directionOutput w3 Hpos)
      as (evo & Hxo & Hto & _ & Hco).
    destruct (pipeThenClose_closes bufSize s RemoteConn ClientConn directionInput wt Hpos)
      as (evi & Hxi & Hti & _ & Hci).
    rewrite Hxo in HH, Ht.
    exists (remoteToLocal bufSize s RemoteConn ClientConn).
    exists ([EvWrite ClientConn [x05; x00] None]
            ++ (EvWrite ClientConn confirmation (hd None (wr w2 ClientConn))
                :: match hd None (wr w2 ClientConn) with
                   | Some _ => [EvPrintln "send connection confirmation:"%string]
                   | None => []
                   end
                ++ [EvPrintln "connected to"%string;
                    EvDial raw (server (serverCipher s))])
            ++ [EvWgAdd 1]).
    exists (evo ++ [EvPrintln "closed connection to"%string; EvClose ClientConn; EvWgDone]).
    exists (evi ++ [EvWgDone]).
    rewrite HH. simpl fst. simpl snd. splits; auto.
    + rewrite Ht, Hto, Ht3, Ht2, Ht1.
      norm_trace. reflexivity.
    + destruct (hd None (wr w2 ClientConn)); reflexivity.
    + destruct (hd None (wr w2 ClientConn)); reflexivity.
    + unfold remoteToLocal, bind. 
      destruct (pipeThenClose bufSize s RemoteConn ClientConn directionInput wt) as [x wt'].
      simpl in Hxi. subst x. reflexivity.
    + unfold remoteToLocal, bind.
      destruct (pipeThenClose bufSize s RemoteConn ClientConn directionInput wt) as [x wt'].
      simpl in Hxi, Hti. subst x. simpl. rewrite Hti, <- app_assoc. reflexivity.
    + intros m Hm. rewrite !(closes_merge _ _ _ _ Hm), !closes_app, !Hco, !Hci.
      split; reflexivity.
Qed.

(** ** Stop *)

(** C1, as the code has it. [Stop] is for one use: called on a service whose
    channel is open it does not panic, closes the channel, and returns only
    with the counter of the wait group at zero, every registered unit of work
    done; called again on that service it panics in [close(s.ch)]. *)
Theorem Stop_single_use (others : Lifecycle.State -> Lifecycle.State)
    (st : Lifecycle.State) :
  Lifecycle.keeps_channel others ->
  (Lifecycle.ch_closed st = false ->
   (forall msg, Lifecycle.Stop others st <> Lifecycle.Panics msg) /\
   (forall st', Lifecycle.Stop others st = Lifecycle.Returns st' ->
                Lifecycle.ch_closed st' = true /\ Lifecycle.counter st' = 0%Z) /\
   (Lifecycle.counter (others (Lifecycle.mkState true (Lifecycle.counter st))) = 0%Z ->
    Lifecycle.Stop others st
      = Lifecycle.Returns (others (Lifecycle.mkState true (Lifecycle.counter st))))) /\
  (Lifecycle.ch_closed st = true ->
   Lifecycle.Stop others st = Lifecycle.Panics "close of closed channel"%string) /\
  (forall others2 st',
      Lifecycle.Stop others st = Lifecycle.Returns st' ->
      Lifecycle.Stop others2 st' = Lifecycle.Panics "close of closed channel"%string).
Proof.
  intros Hk.
  assert (Hret : forall st', Lifecycle.Stop others st = Lifecycle.Returns st' ->
                 Lifecycle.ch_closed st' = true /\ Lifecycle.counter st' = 0%Z).
  { unfold Lifecycle.Stop, Lifecycle.close, Lifecycle.Wait. intros st'.
    destruct (Lifecycle.ch_closed st); [discriminate|].
    destruct (Z.eqb_spec
                (Lifecycle.counter (others (Lifecycle.mkState true (Lifecycle.counter st)))) 0)
      as [E|NE]; [|discriminate].
    intros H. inversion H; subst. split; auto; try (rewrite Hk; reflexivity). }
  splits.
  - intros Hopen. splits; auto.
    + intros msg. unfold Lifecycle.Stop, Lifecycle.close, Lifecycle.Wait.
      rewrite Hopen. destruct (_ =? _)%Z; discriminate.
    + intros H0. unfold Lifecycle.Stop, Lifecycle.close, Lifecycle.Wait.
      rewrite Hopen, H0. reflexivity.
  - intros Hc. unfold Lifecycle.Stop, Lifecycle.close. rewrite Hc. reflexivity.
  - intros others2 st' H. destruct (Hret st' H) as (Hc & _).
    unfold Lifecycle.Stop, Lifecycle.close. rewrite Hc. reflexivity.
Qed.

(** * Further properties *)

(** ** The parsers on streams that end early *)

Lemma make_length n : length (make n) = n.
Proof. apply repeat_length. Qed.

Lemma readLoop_short : forall fuel c buf lo hi min n w,
  okchunks (rd w c) -> chunks_size (rd w c) < fuel ->
  min <= hi - lo -> hi <= length buf ->
  n + length (pending w c) < min ->
  exists buf' w',
    readLoop fuel c buf lo hi min n None w
      = ((n + length (pending w c), Some EOF, buf'), w') /\
    rd w' c = [] /\ same_but_rd c w w'.
Proof.
  induction fuel as [|fuel IH]; intros c buf lo hi min n w Hok Hfuel Hmin Hhi Hav;
    [lia|].
  cbn [readLoop]. destruct (Nat.ltb_spec n min) as [Hlt|]; [|lia].
  unfold bind.
  destruct (rd w c) as [|ch rest] eqn:Hrd.
  - unfold Read, pending. rewrite Hrd. simpl.
    exists (store buf (lo + n) []), w.
    destruct fuel; simpl; rewrite Nat.add_0_r;
      splits; auto using same_but_rd_refl.
  - assert (Hne : rd w c <> []) by congruence.
    rewrite <- Hrd in *.
    destruct (@Read_ok c (hi - (lo + n)) w Hok Hne)
      as (m & w1 & HR & Hm1 & Hm2 & Hp1 & Hok1 & Hsz & Hs1).
    rewrite HR.
    assert (Hlen : length (firstn m (pending w c)) = m)
      by (rewrite length_firstn; lia).
    rewrite Hlen.
    destruct (IH c (store buf (lo + n) (firstn m (pending w c))) lo hi min (n + m) w1)
      as (buf' & w' & HL & Hrd' & Hs'); auto; try lia.
    + rewrite store_length; lia.
    + rewrite Hp1, length_skipn. lia.
    + exists buf', w'. rewrite HL. rewrite Hp1, length_skipn.
      splits; auto.
      * f_equal. f_equal. f_equal. lia.
      * eapply same_but_rd_trans; eauto.
Qed.

(** A stream that ends before [min] bytes: everything is read, and the
    error is [EOF] when there was nothing, [ErrUnexpectedEOF] otherwise. *)
Lemma ReadAtLeast_short c buf lo hi min w :
  okchunks (rd w c) ->
  min <= hi - lo -> hi <= length buf ->
  length (pending w c) < min ->
  exists buf' w',
    ReadAtLeast c buf lo hi min w
      = ((length (pending w c),
          Some (if length (pending w c) =? 0 then EOF else ErrUnexpectedEOF), buf'), w') /\
    rd w' c = [] /\ same_but_rd c w w'.
Proof.
  intros Hok Hmin Hhi Hav. unfold ReadAtLeast.
  destruct (Nat.ltb_spec (hi - lo) min) as [Hlt|_]; [lia|].
  destruct (@readLoop_short (S (chunks_size (rd w c))) c buf lo hi min 0 w)
    as (buf' & w' & HL & Hrd' & Hs'); auto; try lia.
  rewrite HL. simpl "+".
  destruct (Nat.leb_spec min (length (pending w c))) as [|_]; [lia|].
  exists buf', w'. splits; auto.
  destruct (length (pending w c)); reflexivity.
Qed.

Lemma handShake_frame (s : Service) (conn : ConnId) (w : World) :
  dial (snd (handShake s conn w)) = dial w /\
  chan (snd (handShake s conn w)) = chan w /\
  (forall c, c <> conn -> rd (snd (handShake s conn w)) c = rd w c) /\
  ((fst (handShake s conn w) <> None /\
    trace (snd (handShake s conn w)) = trace w /\
    wr (snd (handShake s conn w)) = wr w) \/
   (fst (handShake s conn w) = hd None (wr w conn) /\
    trace (snd (handShake s conn w))
      = trace w ++ [EvWrite conn [x05; x00] (fst (handShake s conn w))])).
Proof.
  unfold handShake, bind.
  pose proof (ReadAtLeast_frame conn (make 258) 0 258 (idNmethod + 1) w) as HF.
  destruct (ReadAtLeast _ _ _ _ _ w) as [[[n err] buf] wa]. simpl in HF.
  assert (Hquiet : forall wb e, same_but_rd conn w wb ->
    dial (snd (ret (Some e) wb)) = dial w /\
    chan (snd (ret (Some e) wb)) = chan w /\
    (forall c, c <> conn -> rd (snd (ret (Some e) wb)) c = rd w c) /\
    ((fst (ret (Some e) wb) <> None /\
      trace (snd (ret (Some e) wb)) = trace w /\
      wr (snd (ret (Some e) wb)) = wr w) \/
     (fst (ret (Some e) wb) = hd None (wr w conn) /\
      trace (snd (ret (Some e) wb))
        = trace w ++ [EvWrite conn [x05; x00] (fst (ret (Some e) wb))]))).
  { intros wb e (Hwr & Hch & Hd & Ht & Hrd). simpl.
    splits; auto. left. splits; auto. discriminate. }
  assert (Hw : forall wb, same_but_rd conn w wb ->
    let res := (let (a0, w'1) := Write conn [x05; x00] wb in
                (let '(_, err) := a0 in ret err) w'1) in
    dial (snd res) = dial w /\
    chan (snd res) = chan w /\
    (forall c, c <> conn -> rd (snd res) c = rd w c) /\
    ((fst res <> None /\ trace (snd res) = trace w /\ wr (snd res) = wr w) \/
     (fst res = hd None (wr w conn) /\
      trace (snd res) = trace w ++ [EvWrite conn [x05; x00] (fst res)]))).
  { intros wb (Hwr & Hch & Hd & Ht & Hrd).
    destruct (Write_spec conn [x05; x00] wb)
      as (r & w' & HW & Hr & Htr & Hrd' & Hch' & Hdl & _).
    rewrite HW. unfold ret. simpl.
    splits; try congruence.
    - intros c Hc. rewrite Hrd'. auto.
    - right. split; congruence. }
  destruct err as [e|]; [apply Hquiet; exact HF|].
  destruct (negb _); [apply Hquiet; exact HF|].
  destruct (n =? _).
  - unfold ret at 1. cbv beta iota. apply Hw. exact HF.
  - destruct (n <? _); [|apply Hquiet; exact HF].
    pose proof (ReadAtLeast_frame conn buf n (byteAt buf idNmethod + 2)
                  (byteAt buf idNmethod + 2 - n) wa) as HF2.
    unfold ReadFull.
    destruct (ReadAtLeast _ _ _ _ _ wa) as [[[n2 err2] buf2] wb]. simpl in HF2.
    unfold ret at 1. cbv beta iota.
    assert (HF3 : same_but_rd conn w wb) by (eapply same_but_rd_trans; eauto).
    destruct err2 as [e|]; [apply Hquiet; exact HF3|].
    apply Hw. exact HF3.
Qed.

(** X1. [handShake] writes at most once, the two bytes [05 00], as the last
    thing it does, and its result is then the result of that write; when it
    fails earlier it has written nothing. It never dials, closes or polls,
    and reads from no other connection. *)
Theorem handShake_effects (s : Service) (conn : ConnId) (w : World) :
  dial (snd (handShake s conn w)) = dial w /\
  chan (snd (handShake s conn w)) = chan w /\
  (forall c, c <> conn -> rd (snd (handShake s conn w)) c = rd w c) /\
  ((fst (handShake s conn w) <> None /\
    trace (snd (handShake s conn w)) = trace w /\
    wr (snd (handShake s conn w)) = wr w) \/
   (fst (handShake s conn w) = hd None (wr w conn) /\
    trace (snd (handShake s conn w))
      = trace w ++ [EvWrite conn [x05; x00] (fst (handShake s conn w))])).
Proof. exact (handShake_frame s conn w). Qed.

(** X2. A handshake that the stream cuts short fails and is not answered:
    with less than two bytes the error is [EOF] for an empty stream and
    [ErrUnexpectedEOF] for a single byte; with the two bytes of the header
    and less methods than announced it is one of these two. *)
Theorem handShake_truncated (s : Service) (conn : ConnId) (w : World)
    (chunks : list (list byte)) :
  rd w conn = map okChunk chunks ->
  (length (concat chunks) < 2 ->
   fst (handShake s conn w)
     = Some (if length (concat chunks) =? 0 then EOF else ErrUnexpectedEOF) /\
   trace (snd (handShake s conn w)) = trace w) /\
  (forall nb methods,
      concat chunks = x05 :: nb :: methods ->
      length methods < Byte.to_nat nb ->
      (fst (handShake s conn w) = Some EOF \/
       fst (handShake s conn w) = Some ErrUnexpectedEOF) /\
      trace (snd (handShake s conn w)) = trace w /\
      pending (snd (handShake s conn w)) conn = []).
Proof.
  intros Hrd.
  destruct (pending_okChunks w conn chunks Hrd) as [Hok Hp].
  split.
  - intros Hlt. rewrite <- Hp in *.
    destruct (@ReadAtLeast_short conn (make 258) 0 258 2 w Hok)
      as (buf' & w' & HR & _ & (_ & _ & _ & Ht & _)); try lia.
    { rewrite make_length. lia. }
    unfold handShake, bind. change (idNmethod + 1) with 2. rewrite HR.
    split; [reflexivity|exact Ht].
  - intros nb methods Hmsg Hn.
    rewrite Hmsg in Hp.
    set (msg := x05 :: nb :: methods) in *.
    assert (Hlen : length msg = length methods + 2) by (simpl; lia).
    pose proof (Byte.to_nat_bounded nb) as Hb.
    destruct (@ReadAtLeast_ok conn (make 258) 0 258 2 w Hok)
      as (k1 & w1 & HR & Hk1 & Hk2 & Hk3 & Hok1 & Hp1 & Hs1);
      rewrite ?make_length, ?Hp; try lia.
    rewrite Hp in *.
    assert (H0 : byteAt (store (make 258) 0 (firstn k1 msg)) idVer = 5).
    { rewrite byteAt_store_firstn by (unfold idVer; lia). reflexivity. }
    assert (H1 : byteAt (store (make 258) 0 (firstn k1 msg)) idNmethod = Byte.to_nat nb).
    { rewrite byteAt_store_firstn by (unfold idNmethod; lia). reflexivity. }
    unfold handShake, bind. change (idNmethod + 1) with 2. rewrite HR.
    rewrite H0, H1. change (negb (5 =? socksVer5)) with false. cbv beta iota.
    destruct (Nat.eqb_spec k1 (Byte.to_nat nb + 2)); [lia|].
    destruct (Nat.ltb_spec k1 (Byte.to_nat nb + 2)); [|lia].
    set (buf1 := store (make 258) 0 (firstn k1 msg)).
    assert (Hb1 : length buf1 = 258).
    { unfold buf1. rewrite store_length; rewrite ?length_firstn, ?make_length; lia. }
    destruct (@ReadAtLeast_short conn buf1 k1 (Byte.to_nat nb + 2)
                (Byte.to_nat nb + 2 - k1) w1 Hok1)
      as (buf' & w' & HR2 & Hrd2 & Hs2); try lia.
    { rewrite Hp1, length_skipn. lia. }
    unfold ReadFull. rewrite HR2. unfold ret. simpl.
    splits.
    + destruct (length (pending w1 conn) =? 0); auto.
    + destruct Hs1 as (_ & _ & _ & Ht1 & _). destruct Hs2 as (_ & _ & _ & Ht2 & _).
      congruence.
    + unfold pending. rewrite Hrd2. reflexivity.
Qed.

(** X3. A CONNECT request that the stream cuts short, at any byte, fails
    with [EOF] or [ErrUnexpectedEOF]; no raw address comes out, nothing is
    written, and what there was has been read. *)
Theorem getRequest_truncated (s : Service) (conn : ConnId) (w : World)
    (chunks : list (list byte)) (rsv : byte) (a : SocksAddr) (port k : nat) :
  rd w conn = map okChunk chunks ->
  addr_ok a ->
  concat chunks = firstn k (connectRequest rsv a port) ->
  k < length (connectRequest rsv a port) ->
  (fst (getRequest s conn w) = ([], None, Some EOF) \/
   fst (getRequest s conn w) = ([], None, Some ErrUnexpectedEOF)) /\
  (k = 0 -> fst (getRequest s conn w) = ([], None, Some EOF)) /\
  trace (snd (getRequest s conn w)) = trace w /\
  pending (snd (getRequest s conn w)) conn = [].
Proof.
  intros Hrd Ha Hmsg Hk.
  destruct (pending_okChunks w conn chunks Hrd) as [Hok Hp].
  rewrite Hmsg in Hp.
  pose proof (reqLen_connectRequest rsv a port Ha) as Hreq.
  assert (Hlen : 7 <= length (connectRequest rsv a port) <= 262).
  { rewrite connectRequest_length.
    destruct a as [a|a|d]; simpl in Ha; simpl length; lia. }
  assert (H0 : byteAt (connectRequest rsv a port) idVer = 5) by reflexivity.
  assert (H1 : byteAt (connectRequest rsv a port) idCmd = 1) by reflexivity.
  set (req := connectRequest rsv a port) in *.
  assert (Hpl : length (pending w conn) = k) by (rewrite Hp, length_firstn; lia).
  pose proof (getRequest_frame s conn w) as (_ & _ & _ & Ht & _).
  split; [|split; [|split; [exact Ht|]]].
  - destruct (Nat.lt_ge_cases k 5) as [Hshort|Hlong].
    + destruct (@ReadAtLeast_short conn (make 263) 0 263 5 w Hok)
        as (buf' & w' & HR & _ & _); rewrite ?make_length; try lia.
      unfold getRequest, bind. change (idDmLen + 1) with 5. rewrite HR.
      destruct (length (pending w conn) =? 0); auto.
    + destruct (@ReadAtLeast_ok conn (make 263) 0 263 5 w Hok)
        as (k1 & w1 & HR & Hk1 & Hk2 & Hk3 & Hok1 & Hp1 & Hs1);
        rewrite ?make_length; try lia.
      assert (Hpre : firstn k1 (pending w conn) = firstn k1 req).
      { rewrite Hp, firstn_firstn. f_equal. lia. }
      rewrite Hpre in HR.
      assert (Hb : forall i, i < 5 ->
        byteAt (store (make 263) 0 (firstn k1 req)) i = byteAt req i).
      { intros i Hi. apply byteAt_store_firstn; lia. }
      unfold getRequest, bind. change (idDmLen + 1) with 5. rewrite HR.
      rewrite !Hb by (unfold idVer, idCmd; lia).
      rewrite H0, H1.
      change (negb (5 =? socksVer5)) with false.
      change (negb (1 =? socksCmdConnect)) with false. cbv beta iota.
      replace (reqLen (store (make 263) 0 (firstn k1 req))) with (reqLen req)
        by (unfold reqLen; rewrite !Hb by (unfold idType, idDmLen; lia); reflexivity).
      rewrite Hreq.
      destruct (Nat.eqb_spec k1 (length req)); [lia|].
      destruct (Nat.ltb_spec k1 (length req)); [|lia].
      set (buf1 := store (make 263) 0 (firstn k1 req)).
      assert (Hb1 : length buf1 = 263).
      { unfold buf1. rewrite store_length; rewrite ?length_firstn, ?make_length; lia. }
      destruct (@ReadAtLeast_short conn buf1 k1 (length req) (length req - k1) w1 Hok1)
        as (buf' & w' & HR2 & _ & _); try lia.
      { rewrite Hp1, length_skipn. lia. }
      unfold ReadFull. rewrite HR2. unfold ret. simpl.
      destruct (length (pending w1 conn) =? 0); auto.
  - intros ->.
    destruct (@ReadAtLeast_short conn (make 263) 0 263 5 w Hok)
      as (buf' & w' & HR & _ & _); rewrite ?make_length; try lia.
    unfold getRequest, bind. change (idDmLen + 1) with 5. rewrite HR, Hpl.
    reflexivity.
  - destruct (Nat.lt_ge_cases k 5) as [Hshort|Hlong].
    + destruct (@ReadAtLeast_short conn (make 263) 0 263 5 w Hok)
        as (buf' & w' & HR & Hrd' & _); rewrite ?make_length; try lia.
      unfold getRequest, bind. change (idDmLen + 1) with 5. rewrite HR.
      unfold pending. simpl. rewrite Hrd'. reflexivity.
    + destruct (@ReadAtLeast_ok conn (make 263) 0 263 5 w Hok)
        as (k1 & w1 & HR & Hk1 & Hk2 & Hk3 & Hok1 & Hp1 & Hs1);
        rewrite ?make_length; try lia.
      assert (Hpre : firstn k1 (pending w conn) = firstn k1 req).
      { rewrite Hp, firstn_firstn. f_equal. lia. }
      rewrite Hpre in HR.
      assert (Hb : forall i, i < 5 ->
        byteAt (store (make 263) 0 (firstn k1 req)) i = byteAt req i).
      { intros i Hi. apply byteAt_store_firstn; lia. }
      unfold getRequest, bind. change (idDmLen + 1) with 5. rewrite HR.
      rewrite !Hb by (unfold idVer, idCmd; lia).
      rewrite H0, H1.
      change (negb (5 =? socksVer5)) with false.
      change (negb (1 =? socksCmdConnect)) with false. cbv beta iota.
      replace (reqLen (store (make 263) 0 (firstn k1 req))) with (reqLen req)
        by (unfold reqLen; rewrite !Hb by (unfold idType, idDmLen; lia); reflexivity).
      rewrite Hreq.
      destruct (Nat.eqb_spec k1 (length req)); [lia|].
      destruct (Nat.ltb_spec k1 (length req)); [|lia].
      set (buf1 := store (make 263) 0 (firstn k1 req)).
      assert (Hb1 : length buf1 = 263).
      { unfold buf1. rewrite store_length; rewrite ?length_firstn, ?make_length; lia. }
      destruct (@ReadAtLeast_short conn buf1 k1 (length req) (length req - k1) w1 Hok1)
        as (buf' & w' & HR2 & Hrd2 & _); try lia.
      { rewrite Hp1, length_skipn. lia. }
      unfold ReadFull. rewrite HR2. unfold ret. simpl.
      unfold pending. rewrite Hrd2. reflexivity.
Qed.

(** ** getRequest on any stream *)

Lemma firstn_store buf off bs :
  off <= length buf -> firstn off (store buf off bs) = firstn off buf.
Proof.
  intros H. unfold store. rewrite firstn_app, length_firstn.
  replace (off - Nat.min off (length buf)) with 0 by lia.
  simpl. rewrite app_nil_r. apply firstn_all2. rewrite length_firstn. lia.
Qed.

(** The loop of [ReadAtLeast] keeps the length of the buffer and what the
    buffer holds before the place it reads to; it stays inside its window;
    and it ends without an error only with [min] bytes. *)
Lemma readLoop_buf : forall fuel c buf lo hi min n err w,
  hi <= length buf -> lo + n <= hi ->
  let r := fst (readLoop fuel c buf lo hi min n err w) in
  length (snd r) = length buf /\
  firstn (lo + n) (snd r) = firstn (lo + n) buf /\
  n <= fst (fst r) /\ fst (fst r) <= hi - lo /\
  (snd (fst r) = None -> err = None /\ min <= fst (fst r)).
Proof.
  assert (Hdone : forall (buf : list byte) lo hi min n (err : option error) (w : World),
    lo + n <= hi -> (err = None -> min <= n) ->
    let r := fst (ret (n, err, buf) w) in
    length (snd r) = length buf /\
    firstn (lo + n) (snd r) = firstn (lo + n) buf /\
    n <= fst (fst r) /\ fst (fst r) <= hi - lo /\
    (snd (fst r) = None -> err = None /\ min <= fst (fst r))).
  { intros buf lo hi min n err w Hn Hmin. simpl. splits; auto; try lia. }
  induction fuel as [|fuel IH]; intros c buf lo hi min n err w Hhi Hn; simpl.
  - destruct err as [e|]; [apply Hdone; auto; discriminate|].
    destruct (Nat.ltb_spec n min); [|apply Hdone; auto].
    simpl. splits; auto; try lia; discriminate.
  - destruct err as [e|]; [apply Hdone; auto; discriminate|].
    destruct (Nat.ltb_spec n min); [|apply Hdone; auto].
    unfold bind.
    pose proof (Read_length c (hi - (lo + n)) w) as Hlen.
    destruct (Read c (hi - (lo + n)) w) as [[bs e] w1]. simpl in Hlen.
    assert (Hst : length (store buf (lo + n) bs) = length buf)
      by (apply store_length; lia).
    specialize (IH c (store buf (lo + n) bs) lo hi min (n + length bs) e w1).
    rewrite Hst in IH. specialize (IH Hhi ltac:(lia)). simpl in IH.
    destruct IH as (I1 & I2 & I3 & I4 & I5).
    splits; auto; try lia.
    + rewrite <- (firstn_store buf (lo + n) bs) by lia.
      apply (f_equal (firstn (lo + n))) in I2.
      rewrite !firstn_firstn in I2.
      rewrite !Nat.min_l in I2 by lia. exact I2.
    + intros Hnone. destruct (I5 Hnone) as (_ & Hge). auto.
Qed.

Lemma ReadAtLeast_buf c buf lo hi min w :
  hi <= length buf -> lo <= hi ->
  let r := fst (ReadAtLeast c buf lo hi min w) in
  length (snd r) = length buf /\
  firstn lo (snd r) = firstn lo buf /\
  fst (fst r) <= hi - lo /\
  (snd (fst r) = None -> min <= fst (fst r)).
Proof.
  intros Hhi Hlo. unfold ReadAtLeast.
  destruct (hi - lo <? min).
  { cbn [fst snd]. splits; auto; try lia; discriminate. }
  pose proof (readLoop_buf (S (chunks_size (rd w c))) c buf lo hi min 0 None w Hhi
                ltac:(lia)) as HB.
  destruct (readLoop _ c buf lo hi min 0 None w) as [[[n err] buf'] w'].
  simpl in HB. rewrite Nat.add_0_r in HB.
  destruct HB as (B1 & B2 & _ & B4 & B5).
  destruct (Nat.leb_spec min n); simpl; [splits; auto|].
  destruct err as [[]|]; simpl; try (splits; auto; try lia; discriminate).
  - destruct (0 <? n); simpl; splits; auto; try lia; discriminate.
  - splits; auto. intros _. destruct (B5 eq_refl). lia.
Qed.

Lemma byteAt_slice buf lo hi i :
  i < hi - lo -> byteAt (slice buf lo hi) i = byteAt buf (lo + i).
Proof.
  intros Hi. unfold byteAt, slice. rewrite nth_firstn.
  destruct (Nat.ltb_spec i (hi - lo)); [|lia]. rewrite nth_skipn. reflexivity.
Qed.

Lemma slice_length buf lo hi :
  hi <= length buf -> length (slice buf lo hi) = hi - lo.
Proof. intros H. unfold slice. rewrite length_firstn, length_skipn. lia. Qed.

Lemma byteAt_firstn_eq buf1 buf2 n i :
  firstn n buf2 = firstn n buf1 -> i < n -> byteAt buf2 i = byteAt buf1 i.
Proof.
  intros H Hi. unfold byteAt.
  assert (E : nth i (firstn n buf2) x00 = nth i (firstn n buf1) x00) by (rewrite H; auto).
  rewrite !nth_firstn in E. destruct (Nat.ltb_spec i n); [|lia]. rewrite E. reflexivity.
Qed.

Lemma reqLen_cases buf len :
  reqLen buf = Some len ->
  (byteAt buf idType = 1 /\ len = 10) \/
  (byteAt buf idType = 4 /\ len = 22) \/
  (byteAt buf idType = 3 /\ len = 7 + byteAt buf idDmLen).
Proof.
  unfold reqLen, typeIPv4, typeIPv6, typeDm.
  destruct (Nat.eqb_spec (byteAt buf idType) 1) as [E|_].
  { intros H. inversion H. auto. }
  destruct (Nat.eqb_spec (byteAt buf idType) 4) as [E|_].
  { intros H. inversion H. auto. }
  destruct (Nat.eqb_spec (byteAt buf idType) 3) as [E|_]; [|discriminate].
  intros H. inversion H. right; right. split; auto. unfold lenDmBase. lia.
Qed.

Lemma byteAt_bounded buf i : byteAt buf i <= 255.
Proof. apply Byte.to_nat_bounded. Qed.

(** X4. [getRequest] only reads: whatever the stream holds and however the
    parse ends, it writes nothing (no reply, not even on an error), dials
    and closes nothing, and leaves the other connection alone. *)
Theorem getRequest_silent (s : Service) (conn : ConnId) (w : World) :
  trace (snd (getRequest s conn w)) = trace w /\
  wr (snd (getRequest s conn w)) = wr w /\
  dial (snd (getRequest s conn w)) = dial w /\
  chan (snd (getRequest s conn w)) = chan w /\
  forall c, c <> conn -> rd (snd (getRequest s conn w)) c = rd w c.
Proof.
  destruct (getRequest_frame s conn w) as (H1 & H2 & H3 & H4 & H5).
  splits; auto.
Qed.

(** X5. Whatever the stream holds, a raw address that [getRequest] returns
    without an error is well formed: its first byte is the address type 1, 4
    or 3 and it is 7 bytes long for type 1, 19 for type 4, and 4 plus its
    length byte for type 3; with an error there is no raw address and no
    host. *)
Theorem getRequest_wellformed (s : Service) (conn : ConnId) (w : World) :
  (forall e, snd (fst (getRequest s conn w)) = Some e ->
             fst (fst (getRequest s conn w)) = ([], None)) /\
  (snd (fst (getRequest s conn w)) = None ->
   (byteAt (fst (fst (fst (getRequest s conn w)))) 0 = 1 /\
    length (fst (fst (fst (getRequest s conn w)))) = 7) \/
   (byteAt (fst (fst (fst (getRequest s conn w)))) 0 = 4 /\
    length (fst (fst (fst (getRequest s conn w)))) = 19) \/
   (byteAt (fst (fst (fst (getRequest s conn w)))) 0 = 3 /\
    length (fst (fst (fst (getRequest s conn w))))
      = 4 + byteAt (fst (fst (fst (getRequest s conn w)))) 1)).
Proof.
  unfold getRequest, bind. change (idDmLen + 1) with 5.
  pose proof (ReadAtLeast_buf conn (make 263) 0 263 5 w) as HB.
  rewrite make_length in HB. specialize (HB (le_n _) (Nat.le_0_l _)).
  destruct (ReadAtLeast conn (make 263) 0 263 5 w) as [[[n err] buf] w1].
  simpl in HB. destruct HB as (Hl1 & _ & _ & Hn).
  destruct err as [e|]; [split; [reflexivity|discriminate]|].
  specialize (Hn eq_refl).
  destruct (negb _); [split; [reflexivity|discriminate]|].
  destruct (negb _); [split; [reflexivity|discriminate]|].
  destruct (reqLen buf) as [len|] eqn:Hreq; [|split; [reflexivity|discriminate]].
  pose proof (reqLen_cases buf len Hreq) as Hcases.
  pose proof (byteAt_bounded buf idDmLen) as Hbd.
  assert (Hshape : forall buf2,
    length buf2 = 263 -> byteAt buf2 idType = byteAt buf idType ->
    byteAt buf2 idDmLen = byteAt buf idDmLen ->
    (byteAt (slice buf2 idType len) 0 = 1 /\ length (slice buf2 idType len) = 7) \/
    (byteAt (slice buf2 idType len) 0 = 4 /\ length (slice buf2 idType len) = 19) \/
    (byteAt (slice buf2 idType len) 0 = 3 /\
     length (slice buf2 idType len) = 4 + byteAt (slice buf2 idType len) 1)).
  { intros buf2 Hl2 H3 H4. unfold idType, idDmLen in *.
    rewrite slice_length by lia.
    rewrite !byteAt_slice by lia. simpl "+". rewrite H3, H4.
    destruct Hcases as [(E & ->)|[(E & ->)|(E & ->)]]; rewrite E; auto;
      try (right; right; split; auto; lia). }
  destruct (Nat.eqb_spec n len).
  - unfold ret. simpl. split; [discriminate|]. intros _.
    apply Hshape; auto.
  - destruct (Nat.ltb_spec n len); [|split; [reflexivity|discriminate]].
    unfold ReadFull.
    pose proof (ReadAtLeast_buf conn buf n len (len - n) w1) as HB2.
    rewrite Hl1 in HB2.
    assert (Hle : len <= 263) by (destruct Hcases as [(_ & ->)|[(_ & ->)|(_ & ->)]]; lia).
    specialize (HB2 Hle ltac:(lia)).
    destruct (ReadAtLeast conn buf n len (len - n) w1) as [[[n2 err2] buf2] w2].
    simpl in HB2. destruct HB2 as (Hl2 & Hpre & _).
    unfold ret. simpl.
    destruct err2 as [e|]; simpl; [split; [reflexivity|discriminate]|].
    split; [discriminate|]. intros _.
    apply Hshape; auto.
    + apply (byteAt_firstn_eq buf buf2 n); auto; unfold idType; lia.
    + apply (byteAt_firstn_eq buf buf2 n); auto; unfold idDmLen; lia.
Qed.

(** X6. The version is checked first: five bytes or more whose first is not
    5 fail with [errVer], whatever the command, the address type and the
    number of bytes that follow. *)
Theorem getRequest_version (s : Service) (conn : ConnId) (w : World)
    (chunks : list (list byte)) :
  rd w conn = map okChunk chunks ->
  5 <= length (concat chunks) ->
  byteAt (concat chunks) idVer <> 5 ->
  fst (getRequest s conn w) = ([], None, Some errVer).
Proof.
  intros Hrd Hlen Hv.
  destruct (pending_okChunks w conn chunks Hrd) as [Hok Hp].
  destruct (@ReadAtLeast_ok conn (make 263) 0 263 5 w Hok)
    as (k1 & w1 & HR & Hk1 & Hk2 & Hk3 & _);
    rewrite ?make_length, ?Hp; try lia.
  rewrite Hp in HR.
  unfold getRequest, bind. change (idDmLen + 1) with 5. rewrite HR.
  rewrite byteAt_store_firstn by (unfold idVer; lia).
  unfold socksVer5.
  destruct (Nat.eqb_spec (byteAt (concat chunks) idVer) 5); [congruence|].
  reflexivity.
Qed.

(** ** The host that getRequest decodes *)


Lemma skipn_exact {A} (a p : list A) n : n = length a -> skipn n (a ++ p) = p.
Proof.
  intros ->. rewrite skipn_app, Nat.sub_diag, skipn_all. reflexivity.
Qed.






(** ** The relay: shutdown, delivery and accounting *)

Lemma recvCh_chan w : chan (snd (recvCh w)) = tl (chan w).
Proof. unfold recvCh. destruct (chan w) eqn:E; simpl; [exact E|reflexivity]. Qed.

Lemma written_app c a b : written c (a ++ b) = written c a ++ written c b.
Proof. unfold written. apply flat_map_app. Qed.

Lemma sentTotal_app a b : sentTotal (a ++ b) = sentTotal a + sentTotal b.
Proof.
  unfold sentTotal. induction a as [|e a IH]; simpl; auto.
  destruct e; rewrite ?IH; lia.
Qed.

Lemma receivedTotal_app a b : receivedTotal (a ++ b) = receivedTotal a + receivedTotal b.
Proof.
  unfold receivedTotal. induction a as [|e a IH]; simpl; auto.
  destruct e; rewrite ?IH; lia.
Qed.

Lemma written_callback c s dir n : written c (callback s dir n) = [].
Proof.
  destruct (callback_shape s dir n) as [->|(l & _ & [[-> _]|[-> _]])]; reflexivity.
Qed.

Lemma written_same c bs rest :
  written c (EvWrite c bs None :: rest) = bs ++ written c rest.
Proof.
  unfold written. simpl. destruct (ConnId_eqb_spec c c); congruence.
Qed.

(** X8. A relay that finds the channel closed when it polls stops there: it
    does not read, it does not write, what the source still has is left
    unread; [pipeThenClose] then only takes and returns its buffer and closes
    the destination. *)
Theorem pipeThenClose_shutdown (bufSize : nat) (s : Service) (src dst : ConnId)
    (dir : nat) (w : World) :
  hd false (chan w) = true ->
  (fst (pipeIter bufSize s src dst dir w) = Return /\
   trace (snd (pipeIter bufSize s src dst dir w)) = trace w /\
   rd (snd (pipeIter bufSize s src dst dir w)) = rd w /\
   wr (snd (pipeIter bufSize s src dst dir w)) = wr w) /\
  (fst (pipeThenClose bufSize s src dst dir w) = true /\
   trace (snd (pipeThenClose bufSize s src dst dir w))
     = trace w ++ [EvBufGet; EvBufPut; EvClose dst] /\
   rd (snd (pipeThenClose bufSize s src dst dir w)) = rd w /\
   wr (snd (pipeThenClose bufSize s src dst dir w)) = wr w).
Proof.
  intros Hch.
  assert (Hiter : forall w0, hd false (chan w0) = true ->
    exists w1, pipeIter bufSize s src dst dir w0 = (Return, w1) /\
               trace w1 = trace w0 /\ rd w1 = rd w0 /\ wr w1 = wr w0).
  { intros w0 H0. unfold pipeIter, bind.
    destruct (recvCh_spec w0) as (w1 & Hc & Hrd & Hwr & _ & Ht).
    rewrite Hc, H0. exists w1. auto. }
  split.
  - destruct (Hiter w Hch) as (w1 & -> & Ht & Hrd & Hwr). auto.
  - unfold pipeThenClose, bind, event_, Close. cbv beta iota.
    cbn [pipeLoop]. unfold bind.
    destruct (Hiter (emit EvBufGet w) Hch) as (w1 & -> & Ht & Hrd & Hwr).
    unfold ret, event_. simpl. rewrite Ht. simpl.
    splits; auto. norm_trace. reflexivity.
Qed.

Lemma In_tl {A} (x : A) l : In x (tl l) -> In x l.
Proof. destruct l; simpl; auto. Qed.

(** The calls of the listener after a write. *)
Lemma notify_spec s dir n w :
  exists w',
    (match trafficListener s with
     | Some l =>
         if dir =? directionOutput then event_ (EvSent l n) ;;; ret false
         else if dir =? directionInput then event_ (EvReceived l n) ;;; ret false
         else ret false
     | None => ret false
     end) w = (false, w') /\
    trace w' = trace w ++ callback s dir n /\
    rd w' = rd w /\ wr w' = wr w /\ chan w' = chan w /\ dial w' = dial w.
Proof.
  unfold callback.
  destruct (trafficListener s) as [l|];
    [destruct (dir =? directionOutput); [|destruct (dir =? directionInput)]|];
    eexists; (split; [reflexivity|]); simpl; rewrite ?app_nil_r; splits; reflexivity.
Qed.

(** An iteration of the relay over a source without errors, with a
    destination that takes everything and no shutdown. *)
Lemma pipeIter_forward bufSize s src dst dir w :
  0 < bufSize ->
  okchunks (rd w src) ->
  (forall b, In b (chan w) -> b = false) ->
  (forall r, In r (wr w dst) -> r = None) ->
  exists m evs,
    trace (snd (pipeIter bufSize s src dst dir w)) = trace w ++ evs /\
    written dst evs = firstn m (pending w src) /\
    pending (snd (pipeIter bufSize s src dst dir w)) src = skipn m (pending w src) /\
    okchunks (rd (snd (pipeIter bufSize s src dst dir w)) src) /\
    (forall b, In b (chan (snd (pipeIter bufSize s src dst dir w))) -> b = false) /\
    (forall r, In r (wr (snd (pipeIter bufSize s src dst dir w)) dst) -> r = None) /\
    ((rd w src = [] /\ fst (pipeIter bufSize s src dst dir w) = Break /\
      rd (snd (pipeIter bufSize s src dst dir w)) src = []) \/
     (fst (pipeIter bufSize s src dst dir w) = Continue /\
      chunks_size (rd (snd (pipeIter bufSize s src dst dir w)) src)
        < chunks_size (rd w src))).
Proof.
  intros Hpos Hok Hchan Hwr.
  unfold pipeIter, bind.
  pose proof (recvCh_chan w) as Hch1.
  destruct (recvCh_spec w) as (w1 & Hc & Hrd1 & Hwr1 & _ & Ht1).
  rewrite Hc in *. simpl in Hch1.
  assert (Hhd : hd false (chan w) = false).
  { destruct (chan w) as [|b l]; auto. simpl. apply Hchan. left; auto. }
  rewrite Hhd.
  assert (Hchan1 : forall b, In b (chan w1) -> b = false).
  { intros b Hb. rewrite Hch1 in Hb. apply Hchan. apply In_tl; auto. }
  destruct (rd w src) as [|ch rest] eqn:Hsrc.
  - unfold Read. rewrite Hrd1, Hsrc. simpl.
    exists 0, []. rewrite app_nil_r, Hrd1, Hsrc, Hwr1.
    unfold pending. rewrite Hrd1, Hsrc. simpl.
    splits; auto; try constructor.
  - assert (Hok1 : okchunks (rd w1 src)) by (rewrite Hrd1, Hsrc; exact Hok).
    assert (Hne : rd w1 src <> []) by (rewrite Hrd1, Hsrc; discriminate).
    destruct (@Read_ok src bufSize w1 Hok1 Hne)
      as (m & w2 & HR & Hm1 & Hm2 & Hp2 & Hok2 & Hsz & (Hwr2 & Hch2 & _ & Ht2 & _)).
    rewrite HR.
    assert (Hpend : pending w1 src = pending w src)
      by (unfold pending; rewrite Hrd1; reflexivity).
    rewrite Hpend in *.
    assert (Hlen : length (firstn m (pending w src)) = m)
      by (rewrite length_firstn; lia).
    rewrite Hlen.
    specialize (Hsz Hpos). rewrite Hrd1, Hsrc in Hsz.
    rewrite <- Hsrc.
    destruct m as [|m].
    + assert (H00 : (0 <? 0) = false) by reflexivity.
      rewrite H00. unfold ret. cbn [fst snd].
      exists 0, []. rewrite app_nil_r.
      splits; auto; try congruence.
      * intros b Hb. rewrite Hch2 in Hb. auto.
      * intros r Hr. rewrite Hwr2, Hwr1 in Hr. auto.
      * right. split; auto. rewrite Hsrc. exact Hsz.
    + assert (H0S : (0 <? S m) = true) by reflexivity.
      rewrite H0S. cbv iota.
      destruct (Write_spec dst (firstn (S m) (pending w src)) w2)
        as (r & w3 & HW & Hr & Ht3 & Hrd3 & Hch3 & _ & Hwr3).
      assert (HrN : r = None).
      { rewrite Hr. destruct (wr w2 dst) as [|r0 l] eqn:E; auto.
        simpl. apply Hwr. rewrite <- Hwr1, <- Hwr2, E. left; auto. }
      clear Hr. subst r. rewrite HW. rewrite Hlen.
      exists (S m), (EvWrite dst (firstn (S m) (pending w src)) None :: callback s dir (S m)).
      assert (Hwr3' : forall r, In r (wr w3 dst) -> r = None).
      { intros r Hin. rewrite Hwr3 in Hin. apply In_tl in Hin.
        rewrite Hwr2, Hwr1 in Hin. auto. }
      destruct (notify_spec s dir (S m) w3)
        as (w4 & Hblk & Ht4 & Hrd4 & Hwr4 & Hch4 & _).
      unfold bind in Hblk. rewrite Hblk. unfold ret. cbn [fst snd].
      rewrite written_same, written_callback, app_nil_r.
      splits.
      * rewrite Ht4, Ht3, Ht2, Ht1, <- app_assoc. reflexivity.
      * reflexivity.
      * unfold pending in *. rewrite Hrd4, Hrd3. exact Hp2.
      * rewrite Hrd4, Hrd3. exact Hok2.
      * intros b Hb. rewrite Hch4, Hch3, Hch2 in Hb. auto.
      * intros r Hr. rewrite Hwr4 in Hr. auto.
      * right. split; auto. rewrite Hrd4, Hrd3, Hsrc. exact Hsz.
Qed.

Lemma pipeLoop_forward bufSize s src dst dir : forall fuel w,
  0 < bufSize ->
  okchunks (rd w src) ->
  (forall b, In b (chan w) -> b = false) ->
  (forall r, In r (wr w dst) -> r = None) ->
  chunks_size (rd w src) < fuel ->
  exists evs,
    fst (pipeLoop bufSize fuel s src dst dir w) = true /\
    trace (snd (pipeLoop bufSize fuel s src dst dir w)) = trace w ++ evs /\
    written dst evs = pending w src /\
    rd (snd (pipeLoop bufSize fuel s src dst dir w)) src = [].
Proof.
  induction fuel as [|fuel IH]; intros w Hpos Hok Hchan Hwr Hfuel; [lia|].
  cbn [pipeLoop]. unfold bind.
  destruct (pipeIter_forward bufSize s src dst dir w Hpos Hok Hchan Hwr)
    as (m & evs & Ht & Hwn & Hp & Hok' & Hchan' & Hwr' & Hcase).
  destruct (pipeIter bufSize s src dst dir w) as [c w1]. simpl in *.
  destruct Hcase as [(Hnil & -> & Hnil')|(-> & Hsz)].
  - exists evs. simpl. splits; auto.
    rewrite Hwn. unfold pending. rewrite Hnil. simpl. apply firstn_nil.
  - destruct (IH w1 Hpos Hok' Hchan' Hwr' ltac:(lia)) as (evs' & Hx & Ht' & Hw' & Hrd').
    exists (evs ++ evs'). rewrite Hx, Ht', Ht, written_app, Hwn, Hw', Hp.
    splits; auto.
    + rewrite app_assoc. reflexivity.
    + apply firstn_skipn.
Qed.
(** X9. A relay whose source delivers its bytes without error and then
    ends, whose destination accepts every write, and that sees no shutdown,
    returns after it has written to the destination exactly the bytes of the
    source, in their order, and drained the source; the last thing it does
    is to close the destination. *)
Theorem pipeThenClose_forwards (bufSize : nat) (s : Service) (src dst : ConnId)
    (dir : nat) (w : World) :
  0 < bufSize ->
  okchunks (rd w src) ->
  (forall b, In b (chan w) -> b = false) ->
  (forall r, In r (wr w dst) -> r = None) ->
  exists evs,
    fst (pipeThenClose bufSize s src dst dir w) = true /\
    trace (snd (pipeThenClose bufSize s src dst dir w))
      = trace w ++ evs ++ [EvBufPut; EvClose dst] /\
    written dst evs = pending w src /\
    rd (snd (pipeThenClose bufSize s src dst dir w)) src = [].
Proof.
  intros Hpos Hok Hchan Hwr.
  unfold pipeThenClose, bind, event_, Close. cbv beta iota.
  destruct (pipeLoop_forward bufSize s src dst dir
              (S (chunks_size (rd w src))) (emit EvBufGet w) Hpos Hok Hchan Hwr
              (Nat.lt_succ_diag_r _))
    as (evs & Hx & Ht & Hwn & Hrd).
  destruct (pipeLoop bufSize (S (chunks_size (rd w src))) s src dst dir (emit EvBufGet w))
    as [x w1].
  simpl in Hx, Ht, Hwn, Hrd. subst x.
  exists (EvBufGet :: evs). unfold ret. simpl. rewrite Ht.
  splits; auto. norm_trace. reflexivity.
Qed.

Lemma relay_events_totals s dst dir x evs :
  relay_events s dst dir x evs ->
  match trafficListener s with
  | None => sentTotal evs = 0 /\ receivedTotal evs = 0
  | Some _ =>
      (dir = directionOutput ->
       sentTotal evs = length (written dst evs) /\ receivedTotal evs = 0) /\
      (dir = directionInput ->
       receivedTotal evs = length (written dst evs) /\ sentTotal evs = 0)
  end.
Proof.
  induction 1 as [| |bs rest x Hrel IH|bs e].
  - destruct (trafficListener s); simpl; auto.
  - destruct (trafficListener s); simpl; auto.
  - change (EvWrite dst bs None :: callback s dir (length bs) ++ rest)
      with ([EvWrite dst bs None] ++ callback s dir (length bs) ++ rest).
    rewrite !sentTotal_app, !receivedTotal_app, !written_app, written_callback.
    rewrite written_same. simpl (written dst []).
    rewrite app_nil_r, !length_app.
    unfold callback in *.
    destruct (trafficListener s) as [l|].
    + destruct IH as (IHo & IHi). split.
      * intros ->. destruct (IHo eq_refl) as (-> & ->). simpl. lia.
      * intros ->. destruct (IHi eq_refl) as (-> & ->). simpl. lia.
    + destruct IH as (-> & ->). simpl; auto.
  - unfold written. simpl. destruct (trafficListener s); simpl; auto.
Qed.

(** X10. The traffic listener is told exactly what was delivered: over a
    whole run of [pipeThenClose], whatever the reads and the writes did, the
    counts passed to [Sent] (outbound relay) or to [Received] (inbound relay)
    add up to the number of bytes written with success to the destination,
    the other method is not called, and without a listener none is. *)
Theorem pipeThenClose_accounting (bufSize : nat) (s : Service) (src dst : ConnId)
    (dir : nat) (w : World) :
  exists evs,
    trace (snd (pipeThenClose bufSize s src dst dir w)) = trace w ++ evs /\
    match trafficListener s with
    | None => sentTotal evs = 0 /\ receivedTotal evs = 0
    | Some _ =>
        (dir = directionOutput ->
         sentTotal evs = length (written dst evs) /\ receivedTotal evs = 0) /\
        (dir = directionInput ->
         receivedTotal evs = length (written dst evs) /\ sentTotal evs = 0)
    end.
Proof.
  destruct (pipeThenClose_events bufSize s src dst dir w) as (evs & Hrel & _ & Ht).
  pose proof (relay_events_totals s dst dir _ evs Hrel) as Htot.
  set (tail := if fst (pipeThenClose bufSize s src dst dir w)
               then [EvBufPut; EvClose dst] else []) in *.
  exists ([EvBufGet] ++ evs ++ tail). split; [exact Ht|].
  assert (Hs : sentTotal tail = 0) by (unfold tail; destruct (fst _); reflexivity).
  assert (Hr : receivedTotal tail = 0) by (unfold tail; destruct (fst _); reflexivity).
  assert (Hw : written dst tail = []) by (unfold tail; destruct (fst _); reflexivity).
  rewrite !sentTotal_app, !receivedTotal_app, !written_app, Hs, Hr, Hw.
  simpl (sentTotal [EvBufGet]). simpl (receivedTotal [EvBufGet]).
  simpl (written dst [EvBufGet]). rewrite app_nil_r, !Nat.add_0_r. simpl.
  exact Htot.
Qed.

(** ** The handler on every path *)

Lemma wgDelta_app a b : wgDelta (a ++ b) = (wgDelta a + wgDelta b)%Z.
Proof.
  unfold wgDelta. induction a as [|e a IH]; simpl; auto.
  destruct e; rewrite ?IH; lia.
Qed.



Lemma handShake_failure_trace s conn w e w1 :
  handShake s conn w = (Some e, w1) ->
  trace w1 = trace w \/ trace w1 = trace w ++ [EvWrite conn [x05; x00] (Some e)].
Proof.
  intros H. destruct (handShake_frame s conn w) as (_ & _ & _ & Hcase).
  rewrite H in Hcase. simpl in Hcase.
  destruct Hcase as [(_ & Ht & _)|(_ & Ht)]; auto.
Qed.

Lemma handleConnection_reject_paths (bufSize : nat) (s : Service) (conn : ConnId)
    (w : World) :
  (forall e w1,
      handShake s conn w = (Some e, w1) ->
      fst (handleConnection bufSize s conn w) = (true, None) /\
      rd (snd (handleConnection bufSize s conn w)) = rd w1 /\
      exists hs,
        (hs = [] \/ hs = [EvWrite conn [x05; x00] (Some e)]) /\
        trace (snd (handleConnection bufSize s conn w))
          = trace w ++ hs
              ++ [EvPrintln "socks handshake:"%string; EvClose conn; EvWgDone]) /\
  (forall w1 raw host e w2,
      handShake s conn w = (None, w1) ->
      getRequest s conn w1 = ((raw, host, Some e), w2) ->
      fst (handleConnection bufSize s conn w) = (true, None) /\
      trace (snd (handleConnection bufSize s conn w))
        = trace w
            ++ [EvWrite conn [x05; x00] None;
                EvPrintln "error getting request:"%string; EvClose conn; EvWgDone]).
Proof.
  split.
  - intros e w1 Hhs.
    pose proof (handShake_failure_trace s conn w e w1 Hhs) as Ht.
    unfold handleConnection, handleConnection_body, bind.
    rewrite Hhs. unfold Println, Close, event_, ret. simpl.
    splits; auto.
    destruct Ht as [Ht|Ht]; rewrite Ht.
    + exists []. split; auto. norm_trace. reflexivity.
    + exists [EvWrite conn [x05; x00] (Some e)]. split; auto.
      norm_trace. reflexivity.
  - intros w1 raw host e w2 Hhs Hgr.
    destruct (handShake_success s conn w w1 Hhs) as (Ht1 & _).
    pose proof (getRequest_frame s conn w1) as (_ & _ & _ & Ht2 & _).
    rewrite Hgr in Ht2. simpl in Ht2.
    unfold handleConnection, handleConnection_body, bind.
    rewrite Hhs, Hgr. unfold Println, Close, event_, ret. simpl.
    split; auto. rewrite Ht2, Ht1. norm_trace. reflexivity.
Qed.

(** X11. A connection whose handshake or whose request fails is dropped:
    the handler logs, closes the client connection and reports its
    completion to the wait group, in that order, and returns; it starts no
    goroutine, writes no confirmation and dials nothing, and after a failed
    handshake it does not read the request. *)
Theorem handleConnection_rejects (bufSize : nat) (s : Service) (conn : ConnId)
    (w : World) :
  (forall e w1,
      handShake s conn w = (Some e, w1) ->
      fst (handleConnection bufSize s conn w) = (true, None) /\
      rd (snd (handleConnection bufSize s conn w)) = rd w1 /\
      exists hs,
        (hs = [] \/ hs = [EvWrite conn [x05; x00] (Some e)]) /\
        trace (snd (handleConnection bufSize s conn w))
          = trace w ++ hs
              ++ [EvPrintln "socks handshake:"%string; EvClose conn; EvWgDone]) /\
  (forall w1 raw host e w2,
      handShake s conn w = (None, w1) ->
      getRequest s conn w1 = ((raw, host, Some e), w2) ->
      fst (handleConnection bufSize s conn w) = (true, None) /\
      trace (snd (handleConnection bufSize s conn w))
        = trace w
            ++ [EvWrite conn [x05; x00] None;
                EvPrintln "error getting request:"%string; EvClose conn; EvWgDone]).
Proof. exact (handleConnection_reject_paths bufSize s conn w). Qed.

(** X12. When the dial of the tunnel fails, after the confirmation has gone
    out, the handler logs, closes the client connection once and returns: no
    relay is started, no byte is written to the remote side, and the traffic
    listener is not called. *)
Theorem handleConnection_dial_failure (bufSize : nat) (s : Service)
    (w0 w1 w2 : World) (raw : list byte) (host : option HostPort) (e : error) :
  handShake s ClientConn w0 = (None, w1) ->
  getRequest s ClientConn w1 = ((raw, host, None), w2) ->
  dial w2 = Some e ->
  exists evs,
    fst (handleConnection bufSize s ClientConn w0) = (true, None) /\
    trace (snd (handleConnection bufSize s ClientConn w0))
      = trace w0 ++ evs ++ [EvPrintln "dial:"%string; EvClose ClientConn; EvWgDone] /\
    (exists pre, evs = pre ++ [EvDial raw (server (serverCipher s))]) /\
    closes ClientConn evs = 0 /\
    written RemoteConn evs = [] /\
    sentTotal evs = 0 /\ receivedTotal evs = 0 /\
    forall ev, In ev evs -> isGo ev = false.
Proof.
  intros Hhs Hgr Hd.
  destruct (handShake_success s ClientConn w0 w1 Hhs) as (Ht1 & _).
  pose proof (getRequest_frame s ClientConn w1) as (_ & _ & _ & Ht2 & _).
  rewrite Hgr in Ht2. simpl in Ht2.
  destruct (handleConnection_run bufSize s ClientConn w0 w1 w2 raw host Hhs Hgr)
    as (Hfail & _).
  destruct (Hfail e Hd) as (w' & HH & Ht). clear Hfail.
  rewrite HH. simpl fst. simpl snd.
  exists ([EvWrite ClientConn [x05; x00] None]
          ++ (EvWrite ClientConn confirmation (hd None (wr w2 ClientConn))
              :: match hd None (wr w2 ClientConn) with
                 | Some _ => [EvPrintln "send connection confirmation:"%string]
                 | None => []
                 end
              ++ [EvPrintln "connected to"%string])
          ++ [EvDial raw (server (serverCipher s))]).
  splits; auto.
  - rewrite Ht, Ht2, Ht1. norm_trace. reflexivity.
  - eexists. rewrite app_assoc. reflexivity.
  - destruct (hd None (wr w2 ClientConn)); reflexivity.
  - destruct (hd None (wr w2 ClientConn)) as [e'|];
      unfold written; simpl; reflexivity.
  - destruct (hd None (wr w2 ClientConn)); reflexivity.
  - destruct (hd None (wr w2 ClientConn)); reflexivity.
  - intros ev Hin. destruct (hd None (wr w2 ClientConn)); simpl in Hin;
      repeat (destruct Hin as [<-|Hin]; [reflexivity|]); tauto.
Qed.



(** ** Serve *)

Lemma Accept_spec l :
  (incoming l = [] /\ Accept l = (Some (OpError true), l)) \/
  (exists r rest, incoming l = r :: rest /\
                  Accept l = (r, mkTCPListener rest (lclosed l))).
Proof.
  unfold Accept. destruct (incoming l) as [|r rest]; [left|right]; eauto.
Qed.

Ltac no_done :=
  try (intros ev Hin; simpl in Hin;
       repeat (destruct Hin as [<-|Hin]; [discriminate|]); destruct Hin).

(** One iteration of the loop of [Serve]. *)
Lemma serveIter_spec bufSize s l w :
  chan (snd (serveIter bufSize s l w)) = tl (chan w) /\
  (hd false (chan w) = true ->
   fst (serveIter bufSize s l w) = (Return, CloseListener l, []) /\
   trace (snd (serveIter bufSize s l w))
     = trace w ++ [EvPrintln "stopping listening on"%string]) /\
  (hd false (chan w) = false ->
   exists evs consumed,
     fst (serveIter bufSize s l w)
       = (Continue, snd (Accept l),
          repeat (handleConnection bufSize s ClientConn) (accepted consumed)) /\
     incoming l = consumed ++ incoming (snd (Accept l)) /\
     lclosed (snd (Accept l)) = lclosed l /\
     trace (snd (serveIter bufSize s l w)) = trace w ++ evs /\
     wgDelta evs = Z.of_nat (accepted consumed) /\
     length (filter isGo evs) = accepted consumed /\
     (forall ev, In ev evs -> ev <> EvWgDone)).
Proof.
  unfold serveIter, bind.
  pose proof (recvCh_chan w) as Hch.
  destruct (recvCh_spec w) as (w1 & Hc & _ & _ & _ & Ht).
  rewrite Hc in *. simpl in Hch.
  splits.
  - destruct (hd false (chan w)); simpl; [exact Hch|].
    destruct (Accept l) as [[e|] l1]; [destruct (isTimeout e)|]; simpl; exact Hch.
  - intros ->. simpl. rewrite Ht. auto.
  - intros ->.
    destruct (Accept_spec l) as [(Hnil & HA)|(r & rest & Hinc & HA)]; rewrite HA.
    + simpl. exists [], []. rewrite app_nil_r, Hnil.
      splits; auto; no_done.
    + destruct r as [e|].
      * exists (if isTimeout e then [] else [EvPrintln "accept:"%string]), [Some e].
        destruct (isTimeout e); simpl; rewrite ?app_nil_r, ?Ht;
          splits; auto; no_done.
      * exists [EvPrintln "socks connect from"%string; EvWgAdd 1; EvGo], [None].
        simpl. rewrite Ht, <- !app_assoc. simpl.
        splits; auto; no_done.
Qed.

Lemma accepted_app a b : accepted (a ++ b) = accepted a + accepted b.
Proof. unfold accepted. rewrite filter_app, length_app. reflexivity. Qed.

Lemma repeat_add {A} (x : A) n m : repeat x (n + m) = repeat x n ++ repeat x m.
Proof. induction n; simpl; congruence. Qed.

Lemma serveLoop_spec bufSize s : forall fuel l started w,
  exists evs consumed,
    trace (snd (serveLoop bufSize fuel s l started w)) = trace w ++ evs /\
    incoming l
      = consumed ++ incoming (snd (fst (fst (serveLoop bufSize fuel s l started w)))) /\
    snd (fst (serveLoop bufSize fuel s l started w))
      = started ++ repeat (handleConnection bufSize s ClientConn) (accepted consumed) /\
    wgDelta evs = Z.of_nat (accepted consumed) /\
    length (filter isGo evs) = accepted consumed /\
    (forall ev, In ev evs -> ev <> EvWgDone) /\
    lclosed (snd (fst (fst (serveLoop bufSize fuel s l started w))))
      = lclosed l
        + (if fst (fst (fst (serveLoop bufSize fuel s l started w))) then 1 else 0) /\
    (hd false (chan w) = true -> consumed = []) /\
    (fst (fst (fst (serveLoop bufSize fuel s l started w))) = true ->
     exists pre, evs = pre ++ [EvPrintln "stopping listening on"%string]).
Proof.
  induction fuel as [|fuel IH]; intros l started w.
  - exists [], []. simpl. rewrite !app_nil_r, Nat.add_0_r.
    splits; auto; try discriminate; no_done.
  - cbn [serveLoop]. unfold bind.
    destruct (serveIter_spec bufSize s l w) as (Hch & Hstop & Hgo).
    destruct (hd false (chan w)) eqn:Hhd.
    + destruct (Hstop eq_refl) as (HI & Ht). clear Hstop Hgo.
      destruct (serveIter bufSize s l w) as [[[c l1] hs] w1].
      simpl in HI, Ht. inversion HI; subst c l1 hs.
      exists [EvPrintln "stopping listening on"%string], [].
      unfold ret. simpl. rewrite !app_nil_r.
      splits; auto; try lia; no_done.
      intros _. exists []. reflexivity.
    + destruct (Hgo eq_refl)
        as (evs1 & cons1 & HI & Hinc & Hlc & Ht & Hwg & Hgoc & Hnd).
      clear Hstop Hgo.
      destruct (serveIter bufSize s l w) as [[[c l1] hs] w1].
      simpl in HI, Ht, Hch. inversion HI; subst c l1 hs.
      destruct (IH (snd (Accept l))
                  (started ++ repeat (handleConnection bufSize s ClientConn)
                                     (accepted cons1)) w1)
        as (evs2 & cons2 & Ht2 & Hinc2 & Hhs2 & Hwg2 & Hgoc2 & Hnd2 & Hlc2 & _ & Hlast).
      exists (evs1 ++ evs2), (cons1 ++ cons2).
      rewrite Ht2, Ht, Hhs2, Hlc2, Hlc.
      rewrite accepted_app, wgDelta_app, filter_app, length_app, repeat_add.
      splits; auto; try discriminate.
      * rewrite app_assoc. reflexivity.
      * rewrite <- app_assoc, <- Hinc2. exact Hinc.
      * rewrite <- app_assoc. reflexivity.
      * lia.
      * intros ev Hin. apply in_app_or in Hin. destruct Hin; auto.
      * intros Hx. destruct (Hlast Hx) as (pre & ->).
        exists (evs1 ++ pre). rewrite app_assoc. reflexivity.
Qed.

Lemma serveLoop_open bufSize s : forall fuel l started w,
  (forall b, In b (chan w) -> b = false) ->
  fst (fst (fst (serveLoop bufSize fuel s l started w))) = false.
Proof.
  induction fuel as [|fuel IH]; intros l started w Hall; [reflexivity|].
  cbn [serveLoop]. unfold bind.
  destruct (serveIter_spec bufSize s l w) as (Hch & _ & Hgo).
  assert (Hhd : hd false (chan w) = false).
  { destruct (chan w) as [|b r]; auto. apply Hall. left; auto. }
  destruct (Hgo Hhd) as (evs1 & cons1 & HI & _).
  destruct (serveIter bufSize s l w) as [[[c l1] hs] w1].
  simpl in HI, Hch. inversion HI; subst c l1 hs.
  apply IH. intros b Hb. rewrite Hch in Hb. apply Hall. apply In_tl; auto.
Qed.

Lemma serveLoop_closed bufSize s : forall fuel l started w,
  In true (chan w) -> length (chan w) <= fuel ->
  fst (fst (fst (serveLoop bufSize fuel s l started w))) = true.
Proof.
  induction fuel as [|fuel IH]; intros l started w Hin Hlen.
  - destruct (chan w); [destruct Hin|simpl in Hlen; lia].
  - cbn [serveLoop]. unfold bind.
    destruct (serveIter_spec bufSize s l w) as (Hch & Hstop & Hgo).
    destruct (hd false (chan w)) eqn:Hhd.
    + destruct (Hstop eq_refl) as (HI & _).
      destruct (serveIter bufSize s l w) as [[[c l1] hs] w1].
      simpl in HI. inversion HI; subst. reflexivity.
    + destruct (Hgo eq_refl) as (evs1 & cons1 & HI & _).
      destruct (serveIter bufSize s l w) as [[[c l1] hs] w1].
      simpl in HI, Hch. inversion HI; subst c l1 hs.
      apply IH.
      * rewrite Hch. destruct (chan w) as [|b r]; [destruct Hin|].
        simpl in Hhd. subst b. destruct Hin as [Hf|Hin]; [discriminate|exact Hin].
      * rewrite Hch. destruct (chan w); simpl in *; lia.
Qed.

(** What [Serve] does, in one statement. *)
Lemma Serve_spec bufSize s l w :
  exists evs consumed,
    trace (snd (Serve bufSize s l w)) = trace w ++ evs /\
    incoming l = consumed ++ incoming (snd (fst (fst (Serve bufSize s l w)))) /\
    snd (fst (Serve bufSize s l w))
      = repeat (handleConnection bufSize s ClientConn) (accepted consumed) /\
    length (filter isGo evs) = accepted consumed /\
    lclosed (snd (fst (fst (Serve bufSize s l w))))
      = lclosed l + (if fst (fst (fst (Serve bufSize s l w))) then 1 else 0) /\
    (hd false (chan w) = true -> consumed = []) /\
    (fst (fst (fst (Serve bufSize s l w))) = true <-> In true (chan w)) /\
    (if fst (fst (fst (Serve bufSize s l w)))
     then wgDelta evs = (Z.of_nat (accepted consumed) - 1)%Z /\
          exists pre,
            evs = pre ++ [EvPrintln "stopping listening on"%string; EvWgDone]
     else wgDelta evs = Z.of_nat (accepted consumed) /\
          forall ev, In ev evs -> ev <> EvWgDone).
Proof.
  unfold Serve, bind.
  set (fuel := S (Nat.max (length (chan w)) (length (incoming l)))).
  destruct (serveLoop_spec bufSize s fuel l [] w)
    as (evs & consumed & Ht & Hinc & Hhs & Hwg & Hgo & Hnd & Hlc & Hhd & Hlast).
  assert (Hiff : fst (fst (fst (serveLoop bufSize fuel s l [] w))) = true
                 <-> In true (chan w)).
  { split.
    - intros Hx.
      destruct (in_dec Bool.bool_dec true (chan w)) as [Hin|Hnin]; auto.
      rewrite serveLoop_open in Hx; [discriminate|].
      intros b Hb. destruct b; [contradiction|reflexivity].
    - intros Hin. apply serveLoop_closed; auto. unfold fuel. lia. }
  destruct (serveLoop bufSize fuel s l [] w) as [[[x l1] hs] w1].
  simpl in *. subst hs.
  destruct x; unfold event_, ret; simpl.
  - destruct (Hlast eq_refl) as (pre & Hpre).
    exists (evs ++ [EvWgDone]), consumed.
    rewrite Ht, wgDelta_app, filter_app, length_app, Hwg, Hgo. simpl.
    splits; auto; try lia.
    + rewrite app_assoc. reflexivity.
    + exists pre. rewrite Hpre, <- app_assoc. reflexivity.
  - exists evs, consumed. splits; auto.
Qed.

(** X14. [Serve] returns exactly when one of its polls finds the channel
    closed. It then has closed the listening socket, once, and ends with its
    log line and its [Done]. A loop that has not returned has not closed the
    socket and has called no [Done]. A shutdown seen at the first poll leaves
    every waiting connection unaccepted. *)
Theorem Serve_shutdown (bufSize : nat) (s : Service) (l : TCPListener) (w : World) :
  (fst (fst (fst (Serve bufSize s l w))) = true <-> In true (chan w)) /\
  (fst (fst (fst (Serve bufSize s l w))) = true ->
   lclosed (snd (fst (fst (Serve bufSize s l w)))) = S (lclosed l) /\
   exists pre,
     trace (snd (Serve bufSize s l w))
       = trace w ++ pre ++ [EvPrintln "stopping listening on"%string; EvWgDone]) /\
  (fst (fst (fst (Serve bufSize s l w))) = false ->
   lclosed (snd (fst (fst (Serve bufSize s l w)))) = lclosed l /\
   forall ev, In ev (newEvents w (snd (Serve bufSize s l w))) -> ev <> EvWgDone) /\
  (hd false (chan w) = true ->
   incoming (snd (fst (fst (Serve bufSize s l w)))) = incoming l /\
   snd (fst (Serve bufSize s l w)) = []).
Proof.
  destruct (Serve_spec bufSize s l w)
    as (evs & consumed & Ht & Hinc & Hhs & Hgo & Hlc & Hhd & Hiff & Hend).
  assert (Hnew : newEvents w (snd (Serve bufSize s l w)) = evs).
  { unfold newEvents. rewrite Ht. apply skipn_exact. reflexivity. }
  splits.
  - exact Hiff.
  - intros Hx. rewrite Hx in *. destruct Hend as (_ & pre & ->).
    split; [lia|]. exists pre. exact Ht.
  - intros Hx. rewrite Hx in *. destruct Hend as (_ & Hnd).
    split; [lia|]. rewrite Hnew. exact Hnd.
  - intros H. rewrite (Hhd H) in *. simpl in Hinc. split; [congruence|exact Hhs].
Qed.

(** X15. [Serve] starts one handler for each connection that [Accept]
    returned, and none for a timeout or for another error of [Accept], which
    do not end the loop either: the results of [Accept] it went through are a
    prefix of those the socket had, every handler is [handleConnection] on the
    accepted connection, and there are as many [go] statements, each after an
    [Add(1)], as there were connections. *)
Theorem Serve_handlers (bufSize : nat) (s : Service) (l : TCPListener) (w : World) :
  exists consumed,
    incoming l = consumed ++ incoming (snd (fst (fst (Serve bufSize s l w)))) /\
    snd (fst (Serve bufSize s l w))
      = repeat (handleConnection bufSize s ClientConn) (accepted consumed) /\
    length (filter isGo (newEvents w (snd (Serve bufSize s l w)))) = accepted consumed /\
    wgDelta (newEvents w (snd (Serve bufSize s l w)))
      = (Z.of_nat (accepted consumed)
         - (if fst (fst (fst (Serve bufSize s l w))) then 1 else 0))%Z.
Proof.
  destruct (Serve_spec bufSize s l w)
    as (evs & consumed & Ht & Hinc & Hhs & Hgo & Hlc & Hhd & Hiff & Hend).
  assert (Hnew : newEvents w (snd (Serve bufSize s l w)) = evs).
  { unfold newEvents. rewrite Ht. apply skipn_exact. reflexivity. }
  exists consumed. rewrite Hnew. splits; auto.
  destruct (fst (fst (fst (Serve bufSize s l w)))).
  - destruct Hend as (-> & _). reflexivity.
  - destruct Hend as (-> & _). lia.
Qed.

(** ** The wait group over a whole service *)





(** * Examples *)

(** ** Runs that the claims C1, C2 and C5 do not allow *)

(** C1. The second call of [Stop] on a service panics: the service is
    created, [Stop] closes the channel, the accept loop sees it and returns,
    [Stop] returns; [Stop] is called again. *)
Lemma Stop_twice_panics :
  Lifecycle.Stop Lifecycle.serve_returns Lifecycle.NewService
    = Lifecycle.Returns (Lifecycle.mkState true 0) /\
  Lifecycle.Stop (fun st => st) (Lifecycle.mkState true 0)
    = Lifecycle.Panics "close of closed channel"%string.
Proof. split; reflexivity. Qed.

(** C2. In the session [exSession] both relays and the handler return; the
    remote connection has been closed once and the client connection twice. *)
Lemma handleConnection_closes_client_twice :
  let r := handleConnection 4096 exService ClientConn exSession in
  fst (fst r) = true /\
  match snd (fst r) with
  | Some task =>
      fst (task exTask) = true /\
      closes RemoteConn (trace (snd r) ++ trace (snd (task exTask))) = 1 /\
      closes ClientConn (trace (snd r) ++ trace (snd (task exTask))) = 2
  | None => False
  end.
Proof. vm_compute. repeat split. Qed.


(** ** The theorems at work *)

Lemma Stop_single_use_witness :
  Lifecycle.keeps_channel Lifecycle.serve_returns /\
  Lifecycle.Stop Lifecycle.serve_returns Lifecycle.NewService
    = Lifecycle.Returns (Lifecycle.mkState true 0) /\
  Lifecycle.Stop Lifecycle.serve_returns (Lifecycle.mkState true 0)
    = Lifecycle.Panics "close of closed channel"%string.
Proof.
  assert (Hk : Lifecycle.keeps_channel Lifecycle.serve_returns).
  { intros [c n]. unfold Lifecycle.serve_returns, Lifecycle.Serve_iter,
      Lifecycle.Done, Lifecycle.Add. simpl.
    destruct c; [destruct (n + -1 <? 0)%Z|]; reflexivity. }
  destruct (Stop_single_use Lifecycle.serve_returns Lifecycle.NewService Hk)
    as (Hopen & _ & Hsecond).
  destruct (Hopen eq_refl) as (_ & _ & Hret).
  splits.
  - exact Hk.
  - exact (Hret eq_refl).
  - exact (Hsecond Lifecycle.serve_returns _ (Hret eq_refl)).
Defined.

Lemma handShake_negotiation_witness :
  (exists r w',
     handShake exService ClientConn exHello = (r, w') /\
     pending w' ClientConn = [] /\
     trace w' = [EvWrite ClientConn [x05; x00] r]) /\
  fst (handShake exService ClientConn exHelloExtra) = Some errAuthExtraData /\
  fst (handShake exService ClientConn exHelloV4) = Some errVer.
Proof.
  splits.
  - destruct (handShake_negotiation exService ClientConn exHello) as (H1 & _ & _).
    destruct (H1 [[x05; x02]; [x00; x01]] x02 [x00; x01] eq_refl eq_refl eq_refl)
      as (r & w' & HH & _ & Hp & Ht & _).
    exists r, w'. splits; auto.
  - destruct (handShake_negotiation exService ClientConn exHelloExtra) as (_ & H2 & _).
    set (r := ReadAtLeast ClientConn (make 258) 0 258 2 exHelloExtra).
    rewrite (H2 (fst (fst (fst r))) (snd (fst r)) (snd r)).
    + reflexivity.
    + vm_compute. reflexivity.
    + vm_compute. reflexivity.
    + vm_compute. lia.
  - destruct (handShake_negotiation exService ClientConn exHelloV4) as (_ & _ & H3).
    set (r := ReadAtLeast ClientConn (make 258) 0 258 2 exHelloV4).
    rewrite (H3 (fst (fst (fst r))) (snd (fst r)) (snd r)).
    + reflexivity.
    + vm_compute. reflexivity.
    + vm_compute. lia.
Defined.

Lemma getRequest_length_witness :
  reqLen (connectRequest x00 exAddr exPort) = Some 10 /\
  fst (getRequest exService ClientConn exRequestExtra) = ([], None, Some errReqExtraData) /\
  exists w1,
    getRequest exService ClientConn exRequestExtra = (([], None, Some errReqExtraData), w1).
Proof.
  destruct (getRequest_length exService ClientConn exRequestExtra) as (H1 & _ & H3 & H4).
  splits.
  - exact (H1 x00 exAddr exPort eq_refl).
  - set (r := ReadAtLeast ClientConn (make 263) 0 263 5 exRequestExtra).
    rewrite (H3 (fst (fst (fst r))) (snd (fst r)) (snd r) 10).
    + reflexivity.
    + vm_compute. reflexivity.
    + vm_compute. reflexivity.
    + vm_compute. reflexivity.
    + vm_compute. reflexivity.
    + vm_compute. lia.
  - assert (Hne : [x00] <> []) by discriminate.
    destruct (H4 x00 exAddr exPort [x00] None [] eq_refl Hne eq_refl) as (w1 & HG & _).
    exists w1. exact HG.
Defined.




Lemma pipeLoop_traffic_witness :
  exists evs,
    trace (snd (pipeLoop 4096 3 exService ClientConn RemoteConn directionOutput exLast))
      = evs /\
    hd_error (tl evs) = Some (EvSent (Listener 0) 1).
Proof.
  destruct (pipeLoop_traffic 4096 3 exService ClientConn RemoteConn directionOutput exLast)
    as (evs & Ht & Hw & _).
  exists evs. split; [exact Ht|].
  vm_compute in Ht. subst evs.
  destruct (Hw [] RemoteConn [x41] [EvSent (Listener 0) 1] eq_refl) as (_ & Hl).
  destruct (Hl (Listener 0) eq_refl) as (Hs & _).
  exact (Hs eq_refl).
Defined.

Lemma handleConnection_confirmation_witness :
  exists r logs rest,
    trace (snd (handleConnection 4096 exService ClientConn exSession))
      = [EvWrite ClientConn [x05; x00] None;
         EvWrite ClientConn [x05; x00; x00; x01; x00; x00; x00; x00; x08; x43] r]
          ++ logs
          ++ EvDial [x01; xc0; xa8; x01; x01; x1f; x90] "127.0.0.1:8388"%string :: rest.
Proof.
  set (h := handShake exService ClientConn exSession).
  set (g := getRequest exService ClientConn (snd h)).
  destruct (handleConnection_confirmation 4096 exService ClientConn exSession
              (snd h) (snd g) (fst (fst (fst g))) (snd (fst (fst g))))
    as (r & logs & rest & Ht & _).
  - vm_compute. reflexivity.
  - vm_compute. reflexivity.
  - exists r, logs, rest. exact Ht.
Defined.


Lemma handleConnection_closes_witness :
  0 < 4096 /\
  exists task post evt,
    fst (handleConnection 4096 exService ClientConn exSession) = (true, Some task) /\
    fst (task exTask) = true /\
    trace (snd (task exTask)) = evt /\
    forall m, merge post evt m -> closes RemoteConn m = 1 /\ closes ClientConn m = 2.
Proof.
  assert (Hpos : 0 < 4096) by lia.
  destruct (handleConnection_closes 4096 exService Hpos) as (_ & H).
  set (h := handShake exService ClientConn exSession).
  set (g := getRequest exService ClientConn (snd h)).
  destruct (H exSession (snd h) (snd g) (fst (fst (fst g))) (snd (fst (fst g))) exTask)
    as (task & pre & post & evt & H1 & _ & _ & _ & H5 & H6 & H7).
  - vm_compute. reflexivity.
  - vm_compute. reflexivity.
  - vm_compute. reflexivity.
  - split; [exact Hpos|]. exists task, post, evt. splits; auto.
Defined.

(** ** The further properties at work *)

Lemma handShake_truncated_witness :
  fst (handShake exService ClientConn exEmpty) = Some EOF /\
  (fst (handShake exService ClientConn exHelloShort) = Some EOF \/
   fst (handShake exService ClientConn exHelloShort) = Some ErrUnexpectedEOF).
Proof.
  split.
  - destruct (handShake_truncated exService ClientConn exEmpty [] eq_refl) as (H1 & _).
    assert (Hlt : length (concat (@nil (list byte))) < 2) by (simpl; lia).
    destruct (H1 Hlt) as (HH & _). exact HH.
  - destruct (handShake_truncated exService ClientConn exHelloShort
                [[x05; x03]; [x00]] eq_refl) as (_ & H2).
    assert (Hlt : length [x00] < Byte.to_nat x03) by (simpl; lia).
    destruct (H2 x03 [x00] eq_refl Hlt) as (HH & _). exact HH.
Defined.

Lemma getRequest_truncated_witness :
  fst (getRequest exService ClientConn exRequestShort) = ([], None, Some EOF) \/
  fst (getRequest exService ClientConn exRequestShort) = ([], None, Some ErrUnexpectedEOF).
Proof.
  assert (Hk : 7 < length (connectRequest x00 exAddr exPort)) by (vm_compute; lia).
  destruct (getRequest_truncated exService ClientConn exRequestShort
              [[x05; x01; x00; x01; xc0]; [xa8; x01]] x00 exAddr exPort 7
              eq_refl eq_refl eq_refl Hk) as (HH & _).
  exact HH.
Defined.

Lemma getRequest_wellformed_witness :
  length (fst (fst (fst (getRequest exService ClientConn exRequest)))) = 7 /\
  fst (fst (getRequest exService ClientConn exBind)) = ([], None).
Proof.
  split.
  - destruct (getRequest_wellformed exService ClientConn exRequest) as (_ & H2).
    assert (Hn : snd (fst (getRequest exService ClientConn exRequest)) = None)
      by (vm_compute; reflexivity).
    destruct (H2 Hn) as [(_ & Hl)|[(Hb & _)|(Hb & _)]].
    + exact Hl.
    + vm_compute in Hb. discriminate.
    + vm_compute in Hb. discriminate.
  - destruct (getRequest_wellformed exService ClientConn exBind) as (H1 & _).
    apply (H1 errCmd). vm_compute. reflexivity.
Defined.

Lemma getRequest_version_witness :
  fst (getRequest exService ClientConn exRequestV4) = ([], None, Some errVer).
Proof.
  apply (getRequest_version exService ClientConn exRequestV4
           [[x04; x01; x00; x50; xc0; xa8; x01; x01; x00]] eq_refl).
  - simpl. lia.
  - vm_compute. lia.
Defined.


Lemma pipeThenClose_shutdown_witness :
  trace (snd (pipeThenClose 4096 exService ClientConn RemoteConn directionOutput exStopped))
    = [EvBufGet; EvBufPut; EvClose RemoteConn] /\
  pending (snd (pipeThenClose 4096 exService ClientConn RemoteConn directionOutput exStopped))
          ClientConn = [x41].
Proof.
  destruct (pipeThenClose_shutdown 4096 exService ClientConn RemoteConn directionOutput
              exStopped eq_refl) as (_ & (_ & Ht & Hrd & _)).
  split.
  - exact Ht.
  - unfold pending. rewrite Hrd. reflexivity.
Defined.

Lemma pipeThenClose_forwards_witness :
  0 < 4096 /\
  exists evs,
    trace (snd (pipeThenClose 4096 exService ClientConn RemoteConn directionOutput exStream))
      = evs ++ [EvBufPut; EvClose RemoteConn] /\
    written RemoteConn evs = [x41; x42; x43; x44; x45].
Proof.
  assert (Hpos : 0 < 4096) by lia.
  assert (Hok : okchunks (rd exStream ClientConn)) by (repeat constructor).
  assert (Hch : forall b, In b (chan exStream) -> b = false) by (intros b []).
  assert (Hwr : forall r, In r (wr exStream RemoteConn) -> r = None) by (intros r []).
  destruct (pipeThenClose_forwards 4096 exService ClientConn RemoteConn directionOutput
              exStream Hpos Hok Hch Hwr) as (evs & _ & Ht & Hw & _).
  split; [exact Hpos|]. exists evs. split; [exact Ht|exact Hw].
Defined.

Lemma pipeThenClose_accounting_witness :
  exists evs,
    trace (snd (pipeThenClose 4096 exService ClientConn RemoteConn directionOutput exStream))
      = evs /\
    sentTotal evs = length (written RemoteConn evs) /\ receivedTotal evs = 0.
Proof.
  destruct (pipeThenClose_accounting 4096 exService ClientConn RemoteConn directionOutput
              exStream) as (evs & Ht & Hacc).
  exists evs. split; [exact Ht|].
  simpl in Hacc. destruct Hacc as (Hout & _). exact (Hout eq_refl).
Defined.

Lemma handleConnection_rejects_witness :
  fst (handleConnection 4096 exService ClientConn exHelloV4) = (true, None) /\
  trace (snd (handleConnection 4096 exService ClientConn exSessionBind))
    = [EvWrite ClientConn [x05; x00] None;
       EvPrintln "error getting request:"%string; EvClose ClientConn; EvWgDone].
Proof.
  split.
  - destruct (handleConnection_rejects 4096 exService ClientConn exHelloV4) as (H1 & _).
    set (h := handShake exService ClientConn exHelloV4).
    destruct (H1 errVer (snd h)) as (HH & _).
    + vm_compute. reflexivity.
    + exact HH.
  - destruct (handleConnection_rejects 4096 exService ClientConn exSessionBind) as (_ & H2).
    set (h := handShake exService ClientConn exSessionBind).
    set (g := getRequest exService ClientConn (snd h)).
    destruct (H2 (snd h) (fst (fst (fst g))) (snd (fst (fst g))) errCmd (snd g))
      as (_ & Ht).
    + vm_compute. reflexivity.
    + vm_compute. reflexivity.
    + exact Ht.
Defined.

Lemma handleConnection_dial_failure_witness :
  fst (handleConnection 4096 exService ClientConn exSessionNoDial) = (true, None) /\
  exists evs,
    trace (snd (handleConnection 4096 exService ClientConn exSessionNoDial))
      = evs ++ [EvPrintln "dial:"%string; EvClose ClientConn; EvWgDone] /\
    written RemoteConn evs = [] /\ sentTotal evs = 0 /\ receivedTotal evs = 0.
Proof.
  set (h := handShake exService ClientConn exSessionNoDial).
  set (g := getRequest exService ClientConn (snd h)).
  destruct (handleConnection_dial_failure 4096 exService exSessionNoDial
              (snd h) (snd g) (fst (fst (fst g))) (snd (fst (fst g))) (ErrOther 2))
    as (evs & HH & Ht & _ & _ & Hw & Hs & Hr & _).
  - vm_compute. reflexivity.
  - vm_compute. reflexivity.
  - vm_compute. reflexivity.
  - split; [exact HH|]. exists evs. splits; auto.
Defined.


Lemma Serve_shutdown_witness :
  fst (fst (fst (Serve 4096 exService exListener exShutdown))) = true /\
  lclosed (snd (fst (fst (Serve 4096 exService exListener exShutdown)))) = 1.
Proof.
  destruct (Serve_shutdown 4096 exService exListener exShutdown) as (Hiff & Hret & _).
  assert (Hin : In true (chan exShutdown)) by (simpl; auto).
  assert (Hx := proj2 Hiff Hin).
  split; [exact Hx|]. destruct (Hret Hx) as (Hl & _). exact Hl.
Defined.

